(** * Magazine-style biography generator: photo matching, pull quotes, layouts

    A shallow embedding of [biography_pdf_generator.py] (class
    [BiographyPDFGenerator]) and the properties of its content-matching and
    layout-selection engine.

    Conventions of the embedding:
    - a Python [str] is a [string]; its characters are read as the code points
      U+0000..U+00FF, and the character classes below ([\w], [\d], white
      space, [lower()]) are Python's on that range;
    - a Python [int] is a [Z]; [len] is [String.length] / [length];
    - [None] / a missing value is [None] of an [option];
    - the instance attribute [self.used_images] (a [set] of filenames) is a
      [gset string] threaded through the calls that mutate it;
    - the local dictionary [chapter_thumbnails] is a [gmap string string];
    - the filesystem lookup behind [_get_safe_photo_path], the clock and the
      WeasyPrint renderer are the variables of the sections that use them. *)

From Stdlib Require Import ZArith NArith Ascii String List Bool Lia.
From Stdlib Require Import Sorting.Sorted Sorting.Permutation.
From Stdlib Require DecimalString.
From stdpp Require Import base gmap strings list.

Local Open Scope Z_scope.

(** ** Characters and strings *)

Module Text.

Definition s2l : string -> list ascii := list_ascii_of_string.
Definition l2s : list ascii -> string := string_of_list_ascii.

Definition code (c : ascii) : N := N_of_ascii c.

Definition in_range (lo hi : N) (c : ascii) : bool :=
  ((lo <=? code c) && (code c <=? hi))%N.

(** [\d] *)
Definition is_digit (c : ascii) : bool := in_range 48 57 c.

(** [\w]: alphanumeric code points and the underscore. *)
Definition is_word (c : ascii) : bool :=
  in_range 48 57 c || in_range 65 90 c || (code c =? 95)%N || in_range 97 122 c
  || (code c =? 170)%N || in_range 178 179 c || (code c =? 181)%N
  || in_range 185 186 c || in_range 188 190 c
  || in_range 192 214 c || in_range 216 246 c || in_range 248 255 c.

(** [str.isspace], the characters removed by [str.strip()]. *)
Definition is_space (c : ascii) : bool :=
  in_range 9 13 c || in_range 28 32 c || (code c =? 133)%N || (code c =? 160)%N.

(** [str.lower()] on one character. *)
Definition lower_char (c : ascii) : ascii :=
  if in_range 65 90 c || (in_range 192 222 c && negb (code c =? 215)%N)
  then ascii_of_N (code c + 32) else c.

Definition lower (s : string) : string := l2s (map lower_char (s2l s)).

Definition len (s : string) : Z := Z.of_nat (String.length s).

Definition dquote : ascii := Eval cbv in ascii_of_nat 34.
Definition newline : ascii := Eval cbv in ascii_of_nat 10.
Definition dq : string := String dquote EmptyString.
Definition nl : string := String newline EmptyString.

(** [f"{a} {b}"] and friends are written with [+:+]. *)
Fixpoint spaces (n : nat) : string :=
  match n with O => "" | S k => String " " (spaces k) end.

(** *** Substring test: Python's [needle in hay] *)

Fixpoint is_prefix (p s : list ascii) : bool :=
  match p, s with
  | [], _ => true
  | _ :: _, [] => false
  | a :: p', b :: s' => if ascii_dec a b then is_prefix p' s' else false
  end.

Fixpoint is_infix (p s : list ascii) : bool :=
  is_prefix p s ||
  match s with
  | [] => false
  | _ :: s' => is_infix p s'
  end.

Definition contains (needle hay : string) : bool := is_infix (s2l needle) (s2l hay).

(** [s[:n]] for a non-negative literal [n]. *)
Definition prefix_of (n : nat) (s : string) : string := l2s (take n (s2l s)).

(** *** [str.strip()] *)

Fixpoint lstrip (s : list ascii) : list ascii :=
  match s with
  | [] => []
  | c :: s' => if is_space c then lstrip s' else s
  end.

Definition strip_chars (s : list ascii) : list ascii := rev (lstrip (rev (lstrip s))).

Definition strip (s : string) : string := l2s (strip_chars (s2l s)).

(** *** [re.split(r'[.!?]+', text)]

    The pieces between maximal runs of sentence terminators.  The head of
    the result is the piece under construction; [prev_term] tells that the
    previous character already belonged to a run of terminators. *)

Definition is_terminator (c : ascii) : bool :=
  if ascii_dec c "." then true
  else if ascii_dec c "!" then true
  else if ascii_dec c "?" then true else false.

Fixpoint split_terminators (prev_term : bool) (s : list ascii) : list (list ascii) :=
  match s with
  | [] => [[]]
  | c :: s' =>
      if is_terminator c then
        if prev_term then split_terminators true s'
        else [] :: split_terminators true s'
      else
        match split_terminators false s' with
        | piece :: pieces => (c :: piece) :: pieces
        | [] => [[c]]
        end
  end.

Definition re_split_sentences (text : string) : list string :=
  map l2s (split_terminators false (s2l text)).

(** *** [str.split('\n\n')] *)

Fixpoint split_blank_lines (s : list ascii) : list (list ascii) :=
  match s with
  | [] => [[]]
  | c :: s' =>
      let keep :=
        match split_blank_lines s' with
        | piece :: pieces => (c :: piece) :: pieces
        | [] => [[c]]
        end in
      if ascii_dec c newline then
        match s' with
        | c' :: s'' => if ascii_dec c' newline then [] :: split_blank_lines s'' else keep
        | [] => keep
        end
      else keep
  end.

(** [[p.strip() for p in narrative.split('\n\n') if p.strip()]] *)
Definition paragraphs_of (narrative : string) : list string :=
  filter (fun p => p <> "") (map (fun p => l2s (strip_chars p)) (split_blank_lines (s2l narrative))).

(** *** [re.search(r'(\d{4})', title)] followed by [int(...)] *)

Definition digit_val (c : ascii) : Z := Z.of_N (code c) - 48.

Fixpoint search_year (s : list ascii) : option Z :=
  match s with
  | a :: ((b :: c :: d :: _) as s') =>
      if is_digit a && is_digit b && is_digit c && is_digit d
      then Some (1000 * digit_val a + 100 * digit_val b + 10 * digit_val c + digit_val d)
      else search_year s'
  | _ :: s' => search_year s'
  | [] => None
  end.

(** *** [re.findall(r'\b\w{4,}\b', s)]

    [\w{4,}] is greedy and must be framed by word boundaries, so the
    matches are exactly the maximal runs of word characters that are at
    least four characters long, from left to right.  [cur] is the run being
    read, reversed. *)

Definition flush_word (cur : list ascii) : list (list ascii) :=
  if (4 <=? length cur)%nat then [rev cur] else [].

Fixpoint findall_words (cur : list ascii) (s : list ascii) : list (list ascii) :=
  match s with
  | [] => flush_word cur
  | c :: s' =>
      if is_word c then findall_words (c :: cur) s'
      else flush_word cur ++ findall_words [] s'
  end.

Definition re_findall_words4 (s : string) : list string :=
  map l2s (findall_words [] (s2l s)).

(** *** [str(n)] for an integer *)
Definition str_of_int (z : Z) : string := DecimalString.NilZero.string_of_int (Z.to_int z).

Fixpoint count_char (c : ascii) (s : string) : nat :=
  match s with
  | EmptyString => O
  | String a s' => ((if ascii_dec a c then 1 else 0) + count_char c s')%nat
  end.

Definition last_char (s : string) : option ascii := last (s2l s).

End Text.

Import Text.

(** ** Pull-quote extraction: [_extract_pull_quote] *)

Definition emotional_words : list string := ["love"; "remember"; "never"; "always"; "first"].

Definition quote_marks : list string := [dq; "'"; "!"].

(** A quote mark or an exclamation mark in the sentence, or one of the
    emotional words in its lower-cased text. *)
Definition is_compelling (clean : string) : bool :=
  existsb (fun ch => contains ch clean) quote_marks
  || existsb (fun word => contains word (lower clean)) emotional_words.

(** The first loop: the first sentence of suitable length that is compelling. *)
Fixpoint first_compelling (max_length : Z) (sentences : list string) : option string :=
  match sentences with
  | [] => None
  | sentence :: rest =>
      let clean := strip sentence in
      if (30 <? len clean) && (len clean <? max_length) && is_compelling clean
      then Some (clean +:+ ".")
      else first_compelling max_length rest
  end.

(** The fallback loop: the first sentence of interesting length. *)
Fixpoint first_long_enough (max_length : Z) (sentences : list string) : option string :=
  match sentences with
  | [] => None
  | sentence :: rest =>
      let clean := strip sentence in
      if (40 <? len clean) && (len clean <? max_length)
      then Some (clean +:+ ".")
      else first_long_enough max_length rest
  end.

Definition _extract_pull_quote (text : string) (max_length : Z) : option string :=
  let sentences := re_split_sentences text in
  match first_compelling max_length sentences with
  | Some quote => Some quote
  | None => first_long_enough max_length sentences
  end.

(** ** Photo matching: [_match_photos_to_chapter] *)

(** A catalog entry, the dictionary built from one row of the [media] table. *)
Record Photo := mkPhoto {
  photo_id : Z;
  filename : string;
  title : string;
  description : string;
  year : option Z;
  people : string
}.

Record Chapter := mkChapter {
  chapter_title : string;
  narrative : string
}.

(** Python truth value of a string: the empty string is false. *)
Definition truthy_str (s : string) : bool :=
  match s with
  | EmptyString => false
  | String _ _ => true
  end.

(** [int(year_match.group(1)) if year_match else None] *)
Definition chapter_year_of (chapter_title : string) : option Z := search_year (s2l chapter_title).

Definition photo_text_of (photo : Photo) : string :=
  lower (title photo +:+ " " +:+ description photo +:+ " " +:+ people photo).

Definition chapter_combined_of (chapter_title chapter_text : string) : string :=
  lower (chapter_title +:+ " " +:+ chapter_text).

(** [set(keywords)] for the keywords of the first 500 characters. *)
Definition chapter_keywords (chapter_combined : string) : gset string :=
  list_to_set (re_findall_words4 (prefix_of 500 chapter_combined)).

Section Matcher.

Variable family_names : list string.

(** The body of the scoring loop for one photo that is not yet used. *)
Definition photo_score (chapter_title chapter_text : string) (photo : Photo) : Z :=
  let chapter_year := chapter_year_of chapter_title in
  let score := 0 in
  (* Year matching (highest priority); [if chapter_year and photo.get('year')]
     is false for a missing year and for the integer 0. *)
  let score :=
    match chapter_year, year photo with
    | Some chapter_year, Some photo_year =>
        if negb (chapter_year =? 0) && negb (photo_year =? 0) then
          let year_diff := Z.abs (photo_year - chapter_year) in
          if year_diff =? 0 then score + 100
          else if year_diff <=? 2 then score + 50
          else if year_diff <=? 5 then score + 20
          else score
        else score
    | _, _ => score
    end in
  (* Family name matching *)
  let photo_text := photo_text_of photo in
  let chapter_combined := chapter_combined_of chapter_title chapter_text in
  let score :=
    fold_left
      (fun score name =>
         if contains (lower name) photo_text && contains (lower name) chapter_combined
         then score + 30 else score)
      family_names score in
  (* Keyword matching *)
  let score :=
    set_fold
      (fun keyword score => if contains keyword photo_text then score + 5 else score)
      score (chapter_keywords chapter_combined) in
  score.

(** The scoring loop: photos already used are skipped, the others are
    appended with their score when it is positive. *)
Fixpoint score_photos (used_images : gset string) (chapter_title chapter_text : string)
    (available_photos : list Photo) : list (Z * Photo) :=
  match available_photos with
  | [] => []
  | photo :: rest =>
      if decide (filename photo ∈ used_images)
      then score_photos used_images chapter_title chapter_text rest
      else
        let score := photo_score chapter_title chapter_text photo in
        if 0 <? score
        then (score, photo) :: score_photos used_images chapter_title chapter_text rest
        else score_photos used_images chapter_title chapter_text rest
  end.

(** [scored_photos.sort(reverse=True, key=lambda x: x[0])]: Python's sort is
    stable, also with [reverse=True]; the result is the stable arrangement
    by decreasing score, computed here by insertion from the right. *)
Fixpoint insert_by_score (x : Z * Photo) (l : list (Z * Photo)) : list (Z * Photo) :=
  match l with
  | [] => [x]
  | y :: l' => if fst x <? fst y then y :: insert_by_score x l' else x :: l
  end.

Definition sort_by_score_desc (l : list (Z * Photo)) : list (Z * Photo) :=
  foldr insert_by_score [] l.

(** [l[:n]]: a negative bound counts from the end. *)
Definition slice_to {A} (n : Z) (l : list A) : list A :=
  if 0 <=? n then take (Z.to_nat n) l
  else take (length l - Z.to_nat (- n))%nat l.

(** [for photo in selected: self.used_images.add(photo['filename'])] *)
Definition mark_used (used_images : gset string) (selected : list Photo) : gset string :=
  fold_left (fun used photo => used ∪ {[ filename photo ]}) selected used_images.

(** The method returns the selected photos; the second component is
    [self.used_images] after the call. *)
Definition _match_photos_to_chapter (used_images : gset string)
    (chapter_title chapter_text : string) (available_photos : list Photo)
    (max_photos : Z) : list Photo * gset string :=
  match available_photos with
  | [] => ([], used_images)
  | _ :: _ =>
      let scored_photos := score_photos used_images chapter_title chapter_text available_photos in
      let scored_photos := sort_by_score_desc scored_photos in
      let selected := map snd (slice_to max_photos scored_photos) in
      (selected, mark_used used_images selected)
  end.

End Matcher.

(** ** Name highlighting: [_highlight_names] *)

Definition q (s : string) : string := dq +:+ s +:+ dq.

Definition is_word_opt (c : option ascii) : bool :=
  match c with
  | Some c => is_word c
  | None => false
  end.

(** [\b] between two neighbouring positions of the text. *)
Definition word_boundary (before after : option ascii) : bool :=
  xorb (is_word_opt before) (is_word_opt after).

(** The escaped name matched literally, ignoring case.  On the code points
    U+0000..U+00FF of the embedding two characters match under
    [re.IGNORECASE] exactly when their lower-case forms are equal; beyond
    that range the pattern equates more (i with the dotless i, s with the
    long s, k with the Kelvin sign), which no string of this file holds. *)
Fixpoint is_prefix_ignorecase (name s : list ascii) : bool :=
  match name, s with
  | [], _ => true
  | _ :: _, [] => false
  | a :: name', b :: s' =>
      if ascii_dec (lower_char a) (lower_char b) then is_prefix_ignorecase name' s' else false
  end.

(** Does [\b(name)\b] match at the position whose previous character is
    [prev] and whose remaining text is [s]? *)
Definition name_matches_at (name : list ascii) (prev : option ascii) (s : list ascii) : bool :=
  let matched := take (length name) s in
  let last_matched := match last matched with Some c => Some c | None => prev end in
  word_boundary prev (head s)
  && is_prefix_ignorecase name s
  && word_boundary last_matched (head (drop (length name) s)).

Definition highlight_span (matched : list ascii) : list ascii :=
  s2l ("<span class=" +:+ q "highlight-name" +:+ ">") ++ matched ++ s2l "</span>".

(** [re.sub(pattern, r'<span class="highlight-name">\1</span>', text,
    flags=re.IGNORECASE)]: the non-overlapping matches from left to right.
    [skip] counts the characters of the current match still to be passed. *)
Fixpoint sub_name (name : list ascii) (prev : option ascii) (skip : nat) (s : list ascii)
    : list ascii :=
  match s with
  | [] => if name_matches_at name prev [] then highlight_span [] else []
  | c :: s' =>
      match skip with
      | S k => sub_name name (Some c) k s'
      | O =>
          if name_matches_at name prev s then
            highlight_span (take (length name) s) ++
            match name with
            | [] => c :: sub_name name (Some c) 0 s'
            | _ :: name' => sub_name name (Some c) (length name') s'
            end
          else c :: sub_name name (Some c) 0 s'
      end
  end.

Definition _highlight_names (family_names : list string) (text : string) : string :=
  fold_left (fun text name => l2s (sub_name (s2l name) None 0 (s2l text))) family_names text.

(** ** Chapter layout: [_create_photo_layout] and [_create_chapter_html] *)

(** [if value:] for an optional string: [None] and the empty string fail. *)
Definition if_truthy (o : option string) : option string :=
  match o with
  | Some s => if truthy_str s then Some s else None
  | None => None
  end.

Definition line (indent : nat) (s : string) : string := nl +:+ spaces indent +:+ s.

Definition div (class : string) : string := "<div class=" +:+ q class +:+ ">".

(** [caption = title or description], then the year in parentheses. *)
Definition caption_of (photo : Photo) : string :=
  let caption := if truthy_str (title photo) then title photo else description photo in
  match year photo with
  | Some y =>
      if negb (y =? 0) then
        if truthy_str caption then caption +:+ " (" +:+ str_of_int y +:+ ")"
        else "(" +:+ str_of_int y +:+ ")"
      else caption
  | None => caption
  end.

(** The triple-quoted image blocks: a [div] of class [class] holding the
    image and, when there is a caption, a paragraph of class [caption_class]. *)
Definition image_block (indent : nat) (class caption_class photo_path caption : string) : string :=
  line indent (div class)
  +:+ line (indent + 4) ("<img src=" +:+ q ("file://" +:+ photo_path) +:+ " alt=" +:+ q caption +:+ ">")
  +:+ line (indent + 4)
        (if truthy_str caption
         then "<p class=" +:+ q caption_class +:+ ">" +:+ caption +:+ "</p>" else "")
  +:+ line indent "</div>"
  +:+ line indent "".

Definition p_tag (para : string) : string := "<p>" +:+ para +:+ "</p>".

Definition pull_quote_html (pull_quote : option string) : string :=
  match if_truthy pull_quote with
  | Some quote => div "pull-quote" +:+ quote +:+ "</div>"
  | None => ""
  end.

Definition concat_str (l : list string) : string := fold_right String.append "" l.

(** The four page compositions, in the order of the cascading conditions. *)
Inductive Layout := FacingSpread | GridWithText | EmbeddedImage | Simple.

Definition select_layout (photos : list Photo) (text_length : nat) : Layout :=
  let has_photos := (0 <? length photos)%nat in
  if has_photos && (length photos =? 1)%nat && (800 <? text_length)%nat then FacingSpread
  else if has_photos && (2 <=? length photos)%nat then GridWithText
  else if has_photos && (length photos =? 1)%nat && (400 <? text_length)%nat then EmbeddedImage
  else Simple.

Section Layouts.

Variable family_names : list string.

(** [_get_safe_photo_path upload_folder filename]: the absolute path of an
    existing file inside the upload folder, else [None]; it depends on the
    filesystem only. *)
Variable _get_safe_photo_path : string -> string -> option string.

Definition _create_photo_layout (photos : list Photo) (upload_folder : string) : string :=
  match photos with
  | [] => ""
  | _ :: _ =>
      let num_photos := length photos in
      let grid_class := "photo-grid photo-grid-" +:+ str_of_int (Z.of_nat num_photos) in
      "<div class=" +:+ q "photo-section" +:+ ">" +:+ div grid_class
      +:+ concat_str
            (map (fun photo =>
                    match if_truthy (_get_safe_photo_path upload_folder (filename photo)) with
                    | None => ""
                    | Some photo_path =>
                        image_block 12 "photo-item" "photo-caption" photo_path (caption_of photo)
                    end) photos)
      +:+ "</div></div>"
  end.

Definition column_class (text_length : nat) : string :=
  if (1200 <? text_length)%nat then "two-column" else "".

(** The branch is entered with exactly one photo, [photos[0]]. *)
Definition facing_spread_body (narrative : string) (pull_quote : option string)
    (photos : list Photo) (upload_folder : string) : string :=
  match photos with
  | [] => ""
  | photo :: _ =>
      match if_truthy (_get_safe_photo_path upload_folder (filename photo)) with
      | Some photo_path =>
          let paragraphs := paragraphs_of narrative in
          let halfway := (length paragraphs / 2)%nat in
          image_block 16 "fullpage-image" "fullpage-caption" photo_path (caption_of photo)
          +:+ div "chapter-narrative"
          +:+ concat_str
                (imap (fun i para =>
                         p_tag para +:+ (if (i =? halfway)%nat then pull_quote_html pull_quote else ""))
                      paragraphs)
          +:+ "</div>"
      | None => ""
      end
  end.

Definition grid_with_text_body (narrative : string) (pull_quote : option string)
    (photos : list Photo) (upload_folder : string) (text_length : nat) : string :=
  let paragraphs := paragraphs_of narrative in
  div "chapter-narrative"
  +:+ match paragraphs with first :: _ => p_tag first | [] => "" end
  +:+ "</div>"
  +:+ pull_quote_html pull_quote
  +:+ _create_photo_layout (take 3 photos) upload_folder
  +:+ (if (1 <? length paragraphs)%nat
       then "<div class=" +:+ q ("chapter-narrative " +:+ column_class text_length) +:+ ">"
            +:+ concat_str (map p_tag (drop 1 paragraphs)) +:+ "</div>"
       else "").

Definition embedded_image_body (narrative : string) (photos : list Photo)
    (upload_folder : string) : string :=
  let paragraphs := paragraphs_of narrative in
  div "chapter-narrative"
  +:+ match paragraphs with first :: _ => p_tag first | [] => "" end
  +:+ "</div>"
  +:+ match photos with
      | [] => ""
      | photo :: _ =>
          match if_truthy (_get_safe_photo_path upload_folder (filename photo)) with
          | Some photo_path =>
              image_block 16 "image-embed" "photo-caption" photo_path (caption_of photo)
          | None => ""
          end
      end
  +:+ div "chapter-narrative"
  +:+ concat_str (map p_tag (drop 1 paragraphs))
  +:+ "</div>".

Definition simple_body (narrative : string) (pull_quote : option string)
    (photos : list Photo) (upload_folder : string) (text_length : nat) : string :=
  "<div class=" +:+ q ("chapter-narrative " +:+ column_class text_length) +:+ ">"
  +:+ concat_str (map p_tag (paragraphs_of narrative))
  +:+ "</div>"
  +:+ pull_quote_html pull_quote
  +:+ _create_photo_layout photos upload_folder.

Definition _create_chapter_html (chapter : Chapter) (photos : list Photo)
    (upload_folder : string) : string :=
  let title := chapter_title chapter in
  let narrative := _highlight_names family_names (narrative chapter) in
  let pull_quote := _extract_pull_quote narrative 150 in
  let text_length := String.length narrative in
  div "chapter"
  +:+ "<h2 class=" +:+ q "chapter-title" +:+ ">" +:+ title +:+ "</h2>"
  +:+ match select_layout photos text_length with
      | FacingSpread => facing_spread_body narrative pull_quote photos upload_folder
      | GridWithText => grid_with_text_body narrative pull_quote photos upload_folder text_length
      | EmbeddedImage => embedded_image_body narrative photos upload_folder
      | Simple => simple_body narrative pull_quote photos upload_folder text_length
      end
  +:+ "</div>".

End Layouts.

(** ** Document assembly: [generate_biography_pdf] *)

(** One row of [SELECT id, filename, title, description, year, people]:
    every text column and the year may be NULL. *)
Record Row := mkRow {
  row_id : Z;
  row_filename : option string;
  row_title : option string;
  row_description : option string;
  row_year : option Z;
  row_people : option string
}.

(** What executing the query on the connection does: it raises, or
    [fetchall()] delivers the rows in the order of the [ORDER BY] clause. *)
Inductive QueryOutcome :=
| QueryRaises (e : string)
| QueryRows (rows : list Row).

(** [value or ''] *)
Definition or_empty (o : option string) : string :=
  match if_truthy o with
  | Some s => s
  | None => ""
  end.

Definition photo_of_row (row : Row) : Photo :=
  {| photo_id := row_id row;
     filename := or_empty (row_filename row);
     title := or_empty (row_title row);
     description := or_empty (row_description row);
     year := row_year row;
     people := or_empty (row_people row) |}.

(** The events sent to the logger by [generate_biography_pdf]. *)
Inductive LogEvent :=
| InfoGenerating (chapters : nat)
| InfoLoaded (photos : nat)
| ErrorLoadingPhotos (e : string)
| InfoMatched (photos : nat) (title_prefix : string)
| InfoConverting
| InfoGenerated
| InfoUsedImages (unique_images : nat).

(** A call either returns a value or raises. *)
Inductive Outcome (A : Type) :=
| Returns (a : A)
| Raises (e : string).
Arguments Returns {A} a.
Arguments Raises {A} e.

(** The try block that fills [available_photos]. *)
Definition load_photos (db_connection : option QueryOutcome) : list Photo * list LogEvent :=
  match db_connection with
  | None => ([], [])
  | Some (QueryRows rows) =>
      let available_photos := map photo_of_row rows in
      (available_photos, [InfoLoaded (length available_photos)])
  | Some (QueryRaises e) => ([], [ErrorLoadingPhotos e])
  end.

Definition html_head : string :=
  line 8 "<!DOCTYPE html>" +:+ line 8 "<html>" +:+ line 8 "<head>"
  +:+ line 12 ("<meta charset=" +:+ q "UTF-8" +:+ ">")
  +:+ line 12 "<title>The Circle - Family Memory Album</title>"
  +:+ line 8 "</head>" +:+ line 8 "<body>" +:+ line 8 "".

Definition html_tail : string := line 8 "</body>" +:+ line 8 "</html>" +:+ line 8 "".

(** All that one run of the generator decides and produces. *)
Record Run := mkRun {
  cover_filename : option string;
  cover_photo_path : option string;
  chapter_thumbnails : gmap string string;
  toc_photos : list (list Photo);
  chapter_photos : list (list Photo);
  html_content : string;
  used_images : gset string;
  log : list LogEvent;
  result : Outcome string
}.

Section Generator.

Variable _get_safe_photo_path : string -> string -> option string.

(** [datetime.now().strftime("%B %d, %Y")] *)
Variable today : string.

(** [HTML(string=html_content, base_url=upload_folder).write_pdf(...)]:
    the bytes of the document, or the renderer's exception. *)
Variable write_pdf : string -> string -> Outcome string.

(** The loop of the automatic choice: the first photo with tagged people
    or with "family" in its title whose file resolves; it is marked as
    used.  The result is the path and the filename added to the set. *)
Fixpoint auto_select_cover (upload_folder : string) (photos : list Photo)
    : option (string * string) :=
  match photos with
  | [] => None
  | photo :: rest =>
      if truthy_str (people photo) || contains "family" (lower (title photo)) then
        match if_truthy (_get_safe_photo_path upload_folder (filename photo)) with
        | Some cover_photo_path => Some (cover_photo_path, filename photo)
        | None => auto_select_cover upload_folder rest
        end
      else auto_select_cover upload_folder rest
  end.

(** Selection of the hero image: the filename chosen for the cover with
    its resolved path, and the used set. *)
Definition select_cover (upload_folder : string) (hero_photo : option string)
    (available_photos : list Photo) (used_images : gset string)
    : option (string * string) * gset string :=
  match if_truthy hero_photo with
  | Some hero_photo =>
      match if_truthy (_get_safe_photo_path upload_folder hero_photo) with
      | Some cover_photo_path => (Some (cover_photo_path, hero_photo), used_images)
      | None => (None, used_images)
      end
  | None =>
      match available_photos with
      | [] => (None, used_images)
      | first :: _ =>
          match auto_select_cover upload_folder available_photos with
          | Some (cover_photo_path, name) =>
              (Some (cover_photo_path, name), used_images ∪ {[ name ]})
          | None =>
              (* Fallback: use first available photo *)
              match if_truthy (_get_safe_photo_path upload_folder (filename first)) with
              | Some cover_photo_path =>
                  (Some (cover_photo_path, filename first), used_images ∪ {[ filename first ]})
              | None => (None, used_images)
              end
          end
      end
  end.

Definition cover_html (cover_photo_path : option string) (title subtitle : string) : string :=
  div "cover"
  +:+ match cover_photo_path with
      | Some path =>
          line 12 (div "cover-background")
          +:+ line 16 ("<img src=" +:+ q ("file://" +:+ path) +:+ " alt=" +:+ q "Background" +:+ ">")
          +:+ line 12 "</div>" +:+ line 12 ""
      | None => ""
      end
  +:+ div "cover-content"
  +:+ "<h1>" +:+ title +:+ "</h1>"
  +:+ "<h2>" +:+ subtitle +:+ "</h2>"
  +:+ "<p class=" +:+ q "date" +:+ ">Created " +:+ today +:+ "</p>"
  +:+ "</div>" +:+ "</div>".

(** The first loop of the table of contents: one matcher call per chapter
    with [max_photos=1]; the path of the photo found is stored under the
    chapter's title.  Returns the photos of each call, the dictionary and
    the used set. *)
Fixpoint collect_thumbnails (family_names : list string) (upload_folder : string)
    (available_photos : list Photo) (chapters : list Chapter)
    (chapter_thumbnails : gmap string string) (used_images : gset string)
    : list (list Photo) * gmap string string * gset string :=
  match chapters with
  | [] => ([], chapter_thumbnails, used_images)
  | chapter :: rest =>
      let '(chapter_photos, used_images) :=
        _match_photos_to_chapter family_names used_images
          (chapter_title chapter) (narrative chapter) available_photos 1 in
      let chapter_thumbnails :=
        match chapter_photos with
        | photo :: _ =>
            match if_truthy (_get_safe_photo_path upload_folder (filename photo)) with
            | Some photo_path => <[ chapter_title chapter := photo_path ]> chapter_thumbnails
            | None => chapter_thumbnails
            end
        | [] => chapter_thumbnails
        end in
      let '(calls, chapter_thumbnails, used_images) :=
        collect_thumbnails family_names upload_folder available_photos rest
          chapter_thumbnails used_images in
      (chapter_photos :: calls, chapter_thumbnails, used_images)
  end.

(** One entry of the table of contents. *)
Definition toc_entry_html (chapter_thumbnails : gmap string string) (chapter : Chapter) : string :=
  div "toc-entry" +:+ div "toc-entry-content"
  +:+ match chapter_thumbnails !! chapter_title chapter with
      | Some path =>
          "<img src=" +:+ q ("file://" +:+ path) +:+ " class=" +:+ q "toc-thumbnail"
          +:+ " alt=" +:+ q "" +:+ ">"
      | None => ""
      end
  +:+ div "toc-text"
  +:+ div "toc-chapter-title" +:+ chapter_title chapter +:+ "</div>"
  +:+ "</div>" +:+ "</div>" +:+ "</div>".

Definition toc_html (chapter_thumbnails : gmap string string) (chapters : list Chapter) : string :=
  div "toc" +:+ "<h2>Contents</h2>"
  +:+ concat_str (map (toc_entry_html chapter_thumbnails) chapters)
  +:+ "</div>".

(** The chapter loop: one matcher call per chapter with [max_photos=3],
    then the chapter's markup.  Returns the photos of each call, the
    markup, the log and the used set. *)
Fixpoint render_chapters (family_names : list string) (upload_folder : string)
    (available_photos : list Photo) (chapters : list Chapter) (used_images : gset string)
    : list (list Photo) * string * list LogEvent * gset string :=
  match chapters with
  | [] => ([], "", [], used_images)
  | chapter :: rest =>
      let '(chapter_photos, used_images) :=
        _match_photos_to_chapter family_names used_images
          (chapter_title chapter) (narrative chapter) available_photos 3 in
      let events :=
        match chapter_photos with
        | [] => []
        | _ :: _ => [InfoMatched (length chapter_photos) (prefix_of 40 (chapter_title chapter))]
        end in
      let html :=
        _create_chapter_html family_names _get_safe_photo_path chapter chapter_photos upload_folder in
      let '(calls, html_rest, events_rest, used_images) :=
        render_chapters family_names upload_folder available_photos rest used_images in
      (chapter_photos :: calls, html +:+ html_rest, events ++ events_rest, used_images)
  end.

(** [self_family_names] is the attribute [self.family_names] before the
    call; [family_names] is the optional argument. *)
Definition generate_biography_pdf (self_family_names : list string)
    (chapters : list Chapter) (title subtitle upload_folder : string)
    (db_connection : option QueryOutcome) (hero_photo : option string)
    (family_names : option (list string)) : Run :=
  (* Update family names *)
  let family_names :=
    match family_names with
    | Some (name :: names) => name :: names
    | _ => self_family_names
    end in
  (* Reset used images *)
  let used_images : gset string := ∅ in
  let log0 := [InfoGenerating (length chapters)] in
  (* Get available photos *)
  let '(available_photos, log1) := load_photos db_connection in
  (* Cover page with automatic hero image selection *)
  let '(cover, used_images) :=
    select_cover upload_folder hero_photo available_photos used_images in
  let cover_photo_path := fst <$> cover in
  (* Table of contents with thumbnails *)
  let '(toc_photos, chapter_thumbnails, used_images) :=
    collect_thumbnails family_names upload_folder available_photos chapters ∅ used_images in
  (* Chapters *)
  let '(chapter_photos, chapters_html, log2, used_images) :=
    render_chapters family_names upload_folder available_photos chapters used_images in
  let html_content :=
    html_head +:+ cover_html cover_photo_path title subtitle
    +:+ toc_html chapter_thumbnails chapters +:+ chapters_html +:+ html_tail in
  (* Generate PDF *)
  let outcome := write_pdf html_content upload_folder in
  {| cover_filename := snd <$> cover;
     cover_photo_path := cover_photo_path;
     chapter_thumbnails := chapter_thumbnails;
     toc_photos := toc_photos;
     chapter_photos := chapter_photos;
     html_content := html_content;
     used_images := used_images;
     log := log0 ++ log1 ++ log2 ++ [InfoConverting]
            ++ match outcome with
               | Returns _ => [InfoGenerated; InfoUsedImages (size used_images)]
               | Raises _ => []
               end;
     result := outcome |}.

End Generator.

(** ** The score written as a sum of three terms *)

(** The year term with the years as the code tests them: a year that is
    missing or equal to 0 counts as absent. *)
Definition year_term (chapter_year photo_year : option Z) : Z :=
  match chapter_year, photo_year with
  | Some c, Some p =>
      if (c =? 0) || (p =? 0) then 0
      else if Z.abs (p - c) =? 0 then 100
      else if Z.abs (p - c) <=? 2 then 50
      else if Z.abs (p - c) <=? 5 then 20
      else 0
  | _, _ => 0
  end.

(** The year term in the words of the specification: only a missing year
    counts as absent. *)
Definition year_term_as_specified (chapter_year photo_year : option Z) : Z :=
  match chapter_year, photo_year with
  | Some c, Some p =>
      if Z.abs (p - c) =? 0 then 100
      else if Z.abs (p - c) <=? 2 then 50
      else if Z.abs (p - c) <=? 5 then 20
      else 0
  | _, _ => 0
  end.

(** 30 per configured family name found, ignoring case, in both texts. *)
Definition name_term (family_names : list string) (photo_text chapter_combined : string) : Z :=
  30 * Z.of_nat
         (length (List.filter
                    (fun name => contains (lower name) photo_text
                                 && contains (lower name) chapter_combined)
                    family_names)).

(** 5 per distinct keyword of the chapter found in the photo's text. *)
Definition keyword_term (photo_text chapter_combined : string) : Z :=
  5 * Z.of_nat
        (size (filter (fun keyword => contains keyword photo_text = true)
                      (chapter_keywords chapter_combined))).

Definition score_as_specified (family_names : list string)
    (chapter_title chapter_text : string) (photo : Photo) : Z :=
  year_term_as_specified (chapter_year_of chapter_title) (year photo)
  + name_term family_names (photo_text_of photo) (chapter_combined_of chapter_title chapter_text)
  + keyword_term (photo_text_of photo) (chapter_combined_of chapter_title chapter_text).

(** The photos a matcher call chooses from: not yet used, positive score. *)
Definition candidates (family_names : list string) (used_images : gset string)
    (chapter_title chapter_text : string) (available_photos : list Photo) : list Photo :=
  filter (fun photo => (filename photo ∉ used_images)
                       /\ (0 < photo_score family_names chapter_title chapter_text photo))
         available_photos.

(** The order the sort establishes on scored photos. *)
Definition score_ge (a b : Z * Photo) : Prop := fst b <= fst a.

Definition with_score (score : Photo -> Z) (photo : Photo) : Z * Photo := (score photo, photo).

(** The photos of the sorted list of scored photos. *)
Definition ranked (score : Photo -> Z) (photos : list Photo) : list Photo :=
  map snd (sort_by_score_desc (map (with_score score) photos)).

(** ** Inputs used in the examples *)

Definition summer_text : string :=
  "It was fine. I will always remember that summer! We laughed.".

(** A photo of the year 2, for a chapter whose title carries the year 0000,
    and a photo whose year is stored as 0. *)
Definition early_photo : Photo :=
  {| photo_id := 1; filename := "p1.jpg"; title := ""; description := "";
     year := Some 2; people := "" |}.
Definition year_zero_photo : Photo :=
  {| photo_id := 2; filename := "p2.jpg"; title := ""; description := "";
     year := Some 0; people := "" |}.

(** A narrative of 801 characters in one paragraph, and of 800. *)
Definition narrative_801 : string := l2s (repeat "a"%char 801).
Definition narrative_800 : string := l2s (repeat "a"%char 800).

Definition beach_photo : Photo :=
  {| photo_id := 3; filename := "beach.jpg"; title := "Beach"; description := "";
     year := Some 1990; people := "" |}.

(** A filesystem on which no photo file is found, and one on which every
    file of the upload folder is. *)
Definition no_file (upload_folder filename : string) : option string := None.
Definition every_file (upload_folder filename : string) : option string :=
  Some (upload_folder +:+ "/" +:+ filename).

(** A renderer that succeeds, and a run of the generator on a working
    filesystem with the given hero photo, query outcome and chapters. *)
Definition renders (html_content upload_folder : string) : Outcome string := Returns "%PDF-1.7".

Definition run_with (hero_photo : option string) (db_connection : option QueryOutcome)
    (chapters : list Chapter) : Run :=
  generate_biography_pdf every_file "May 01, 2024" renders [] chapters
    "Our family" "A memoir" "/uploads" db_connection hero_photo None.

Definition summer_chapter : Chapter :=
  mkChapter "Summer 1990" "We spent the summer at the sea.".

Definition beach_row : Row := mkRow 3 (Some "beach.jpg") (Some "Beach") None (Some 1990) None.
Definition garden_row : Row := mkRow 4 (Some "garden.jpg") (Some "Garden") None (Some 1991) None.
Definition family_row : Row :=
  mkRow 5 (Some "family.jpg") (Some "Family portrait") None None None.

(** Two chapters that carry the same title. *)
Definition holidays_1 : Chapter := mkChapter "Holidays 1990" "We went to the beach.".
Definition holidays_2 : Chapter := mkChapter "Holidays 1990" "We stayed in the garden.".

(** A document without any image: no cover image, no thumbnail in the
    table of contents, no photo in a chapter. *)
Definition text_only (r : Run) : Prop :=
  cover_photo_path r = None /\ chapter_thumbnails r = ∅ /\ concat (chapter_photos r) = [].

(** The filenames a run selects for display, in the order of selection:
    the cover, then the photos returned by the matcher for the thumbnails
    and for the chapters.  Selection is what [used_images] records; a
    selected photo reaches the markup only if its file is found and, for a
    thumbnail, if no later chapter of the same title replaces its entry. *)
Definition shown_filenames (r : Run) : list string :=
  option_list (cover_filename r)
  ++ (filename <$> concat (toc_photos r)) ++ (filename <$> concat (chapter_photos r)).

(** ** The matcher calls of a run

    [MatcherCalls names photos used calls used'] : starting with the used set
    [used], successive calls of the matcher on the catalog [photos] returned
    the lists [calls] and left the used set [used']. *)
Inductive MatcherCalls (family_names : list string) (available_photos : list Photo)
    : gset string -> list (list Photo) -> gset string -> Prop :=
| calls_done (used_images : gset string) :
    MatcherCalls family_names available_photos used_images [] used_images
| calls_step (used_images : gset string) (chapter_title chapter_text : string) (max_photos : Z)
    (calls : list (list Photo)) (used_after : gset string) :
    MatcherCalls family_names available_photos
      (_match_photos_to_chapter family_names used_images chapter_title chapter_text
         available_photos max_photos).2
      calls used_after ->
    MatcherCalls family_names available_photos used_images
      ((_match_photos_to_chapter family_names used_images chapter_title chapter_text
          available_photos max_photos).1 :: calls)
      used_after.

(** Two photos two years apart, for a chapter about 1990. *)
Definition photo_of_1988 : Photo := mkPhoto 2 "b.jpg" "" "" (Some 1988) "".
Definition photo_of_1990 : Photo := mkPhoto 3 "c.jpg" "" "" (Some 1990) "".

(** The family names in force during a run: [if family_names:
    self.family_names = family_names]. *)
Definition effective_names (self_family_names : list string)
    (family_names : option (list string)) : list string :=
  match family_names with
  | Some (name :: names) => name :: names
  | _ => self_family_names
  end.

(** The test of the automatic cover choice: tagged people, or "family" in
    the title. *)
Definition tagged_for_cover (photo : Photo) : bool :=
  truthy_str (people photo) || contains "family" (lower (title photo)).

(** ** The module-level [generate_biography_pdf]: family names from the chapters *)

(** [[A-Z]] and [[a-z]] *)
Definition is_upper_az (c : ascii) : bool := in_range 65 90 c.
Definition is_lower_az (c : ascii) : bool := in_range 97 122 c.

Fixpoint lower_run (s : list ascii) : list ascii :=
  match s with
  | c :: s' => if is_lower_az c then c :: lower_run s' else []
  | [] => []
  end.

(** The length of the match of [\b([A-Z][a-z]+ [A-Z][a-z]+)\b] at a
    position, [prev] being the character before it and [s] the text from
    it.  Both runs of lower-case letters are maximal: a shorter first run is
    not followed by the space and a shorter second run not by a word
    boundary. *)
Definition name_match_length (prev : option ascii) (s : list ascii) : option nat :=
  match s with
  | a :: s1 =>
      if negb (is_word_opt prev) && is_upper_az a then
        let run1 := lower_run s1 in
        match run1, drop (length run1) s1 with
        | _ :: _, sp :: b :: s2 =>
            if (if ascii_dec sp " " then true else false) && is_upper_az b then
              let run2 := lower_run s2 in
              match run2 with
              | _ :: _ =>
                  if negb (is_word_opt (head (drop (length run2) s2)))
                  then Some (1 + length run1 + 2 + length run2)%nat
                  else None
              | [] => None
              end
            else None
        | _, _ => None
        end
      else None
  | [] => None
  end.

(** [re.findall]: the matches from left to right, without overlap.  [skip]
    counts the characters of the last match still to be passed. *)
Fixpoint findall_names (prev : option ascii) (skip : nat) (s : list ascii) : list (list ascii) :=
  match s with
  | [] => []
  | c :: s' =>
      match skip with
      | S k => findall_names (Some c) k s'
      | O =>
          match name_match_length prev s with
          | Some n => take n s :: findall_names (Some c) (n - 1) s'
          | None => findall_names (Some c) 0 s'
          end
      end
  end.

Definition re_findall_names (text : string) : list string :=
  map l2s (findall_names None 0 (s2l text)).

(** The loop over the chapters: the first two matches of each. *)
Fixpoint collect_family_names (chapters : list Chapter) : list string :=
  match chapters with
  | [] => []
  | chapter :: rest =>
      let text := chapter_title chapter +:+ " " +:+ narrative chapter in
      let name_matches := re_findall_names text in
      take 2 name_matches ++ collect_family_names rest
  end.

Section Legacy.

(** [list(set(names))]: the distinct names in the iteration order of the
    set, which the language leaves open. *)
Variable list_of_set : list string -> list string.

(** [list(set(family_names))[:5]] *)
Definition extract_family_names (chapters : list Chapter) : list string :=
  take 5 (list_of_set (collect_family_names chapters)).

Variable _get_safe_photo_path : string -> string -> option string.
Variable today : string.
Variable write_pdf : string -> string -> Outcome string.

(** The module-level function: a fresh generator, whose configured names
    are empty, called with the extracted names.  [db_connection] is the
    connection in use, the one given or the one opened on the database file. *)
Definition legacy_generate_biography_pdf (chapters : list Chapter)
    (title subtitle upload_folder : string) (hero_photo : option string)
    (db_connection : option QueryOutcome) : Run :=
  generate_biography_pdf _get_safe_photo_path today write_pdf [] chapters title subtitle
    upload_folder db_connection hero_photo (Some (extract_family_names chapters)).

End Legacy.

(** Two capitalised words separated by one space. *)
Definition two_capitalised_words (name : list ascii) : Prop :=
  exists a run1 b run2,
    name = a :: run1 ++ " "%char :: b :: run2
    /\ is_upper_az a = true /\ is_upper_az b = true
    /\ run1 <> [] /\ run2 <> []
    /\ Forall (fun c => is_lower_az c = true) run1
    /\ Forall (fun c => is_lower_az c = true) run2.

(** Text of ASCII characters only (U+0000..U+007F).  On such text
    [str.lower] and the comparison of [re.IGNORECASE] agree for every
    Python [str]: a pattern of ASCII characters matches, ignoring case,
    only where the lower-cased name stands in the lower-cased text. *)
Definition is_ascii_char (c : ascii) : bool := (code c <? 128)%N.

Definition ascii_only (s : string) : bool := forallb is_ascii_char (s2l s).

(** * Properties *)

(** ** The text primitives on examples *)

Example split_summer :
  re_split_sentences summer_text
  = ["It was fine"; " I will always remember that summer"; " We laughed"; ""].
Proof. reflexivity. Qed.

Example split_leading_run : re_split_sentences ".a..b" = [""; "a"; "b"].
Proof. reflexivity. Qed.

Example findall_example :
  re_findall_words4 "hello wor ld_12 abcd efg" = ["hello"; "ld_12"; "abcd"].
Proof. reflexivity. Qed.

Example search_year_example : chapter_year_of "Early Years (1950-1960)" = Some 1950.
Proof. reflexivity. Qed.

Example search_year_first_run : chapter_year_of "ab123 45678 9" = Some 4567.
Proof. reflexivity. Qed.

Example highlight_example :
  _highlight_names ["John"] "John met Johnny and (john)"
  = "<span class=" +:+ q "highlight-name" +:+ ">John</span> met Johnny and ("
    +:+ "<span class=" +:+ q "highlight-name" +:+ ">john</span>)".
Proof. reflexivity. Qed.

Example paragraphs_example :
  paragraphs_of ("a" +:+ nl +:+ nl +:+ nl +:+ "b" +:+ nl +:+ nl +:+ "  " +:+ nl +:+ nl +:+ " c ")
  = ["a"; "b"; "c"].
Proof. reflexivity. Qed.

(** ** Strings as lists of characters *)

Section TextLemmas.

Lemma s2l_l2s (l : list ascii) : s2l (l2s l) = l.
Proof. apply list_ascii_of_string_of_list_ascii. Qed.

Lemma l2s_s2l (s : string) : l2s (s2l s) = s.
Proof. apply string_of_list_ascii_of_string. Qed.

Lemma s2l_app (a b : string) : s2l (a +:+ b) = s2l a ++ s2l b.
Proof. induction a as [|c a IH]; simpl; [done | by rewrite IH]. Qed.

Lemma append_assoc (a b c : string) : (a +:+ b) +:+ c = a +:+ b +:+ c.
Proof.
  induction a as [|x a IH]; [reflexivity|].
  change (String x ((a +:+ b) +:+ c) = String x (a +:+ b +:+ c)). by rewrite IH.
Qed.

Lemma count_char_s2l (c : ascii) (s : string) :
  count_char c s = length (filter (fun a => a = c) (s2l s)).
Proof.
  induction s as [|a s IH]; simpl; [done|].
  rewrite filter_cons. destruct (ascii_dec a c) as [->|Hne].
  - rewrite decide_True by done. simpl. by rewrite IH.
  - rewrite decide_False by done. by rewrite IH.
Qed.

Lemma lstrip_suffix (l : list ascii) : lstrip l `suffix_of` l.
Proof.
  induction l as [|c l IH]; simpl; [done|].
  destruct (is_space c); [by apply suffix_cons_r | done].
Qed.

Lemma lstrip_Forall (P : ascii -> Prop) (l : list ascii) : Forall P l -> Forall P (lstrip l).
Proof.
  intros H. destruct (lstrip_suffix l) as [k Hk].
  rewrite Hk in H. by apply Forall_app in H as [_ ?].
Qed.

Lemma strip_chars_Forall (P : ascii -> Prop) (l : list ascii) :
  Forall P l -> Forall P (strip_chars l).
Proof.
  intros H. unfold strip_chars.
  apply Forall_rev, lstrip_Forall, Forall_rev, lstrip_Forall, H.
Qed.

(** No piece of the split holds a sentence terminator. *)
Lemma split_terminators_clean (s : list ascii) (prev_term : bool) :
  Forall (Forall (fun c => is_terminator c = false)) (split_terminators prev_term s).
Proof.
  revert prev_term. induction s as [|c s IH]; intros prev_term; simpl.
  - by repeat constructor.
  - destruct (is_terminator c) eqn:Hc.
    + destruct prev_term; [apply IH | constructor; [constructor | apply IH]].
    + specialize (IH false). destruct (split_terminators false s) as [|piece pieces].
      * by repeat constructor.
      * inversion IH; subst. constructor; [by constructor | done].
Qed.

Lemma no_terminator_count (c : ascii) (l : list ascii) :
  is_terminator c = true ->
  Forall (fun a => is_terminator a = false) l ->
  length (filter (fun a => a = c) l) = 0%nat.
Proof.
  intros Hc. induction 1 as [|a l Ha _ IH]; [done|].
  rewrite filter_cons_False; [exact IH | intros ->; congruence].
Qed.

End TextLemmas.

(** ** Pull quotes *)

Section PullQuote.

(** A returned quote is a stripped sentence of the split followed by a period. *)
Lemma first_compelling_shape (max_length : Z) (sentences : list string) (quote : string) :
  first_compelling max_length sentences = Some quote ->
  exists sentence, sentence ∈ sentences /\ quote = strip sentence +:+ ".".
Proof.
  induction sentences as [|sentence rest IH]; simpl; [done|].
  destruct (_ && _ && _).
  - intros [= <-]. exists sentence. split; [apply list_elem_of_here | done].
  - intros H. destruct (IH H) as (x & Hx & ->). exists x. split; [by apply list_elem_of_further | done].
Qed.

Lemma first_long_enough_shape (max_length : Z) (sentences : list string) (quote : string) :
  first_long_enough max_length sentences = Some quote ->
  exists sentence, sentence ∈ sentences /\ quote = strip sentence +:+ ".".
Proof.
  induction sentences as [|sentence rest IH]; simpl; [done|].
  destruct (_ && _).
  - intros [= <-]. exists sentence. split; [apply list_elem_of_here | done].
  - intros H. destruct (IH H) as (x & Hx & ->). exists x. split; [by apply list_elem_of_further | done].
Qed.

Lemma pull_quote_shape (text : string) (max_length : Z) (quote : string) :
  _extract_pull_quote text max_length = Some quote ->
  exists clean : list ascii,
    Forall (fun c => is_terminator c = false) clean /\ s2l quote = clean ++ ["."%char].
Proof.
  unfold _extract_pull_quote. intros H.
  assert (exists sentence, sentence ∈ re_split_sentences text /\ quote = strip sentence +:+ ".")
    as (sentence & Hin & ->).
  { destruct (first_compelling max_length (re_split_sentences text)) eqn:E.
    - injection H as <-. by eapply first_compelling_shape.
    - by eapply first_long_enough_shape. }
  unfold re_split_sentences in Hin.
  apply list_elem_of_fmap in Hin as (piece & -> & Hpiece).
  exists (strip_chars piece). split.
  - apply strip_chars_Forall.
    pose proof (split_terminators_clean (s2l text) false) as Hall.
    rewrite Forall_forall in Hall. by apply Hall.
  - unfold strip. by rewrite s2l_app, !s2l_l2s.
Qed.

End PullQuote.

(** C5, as the code has it: the terminating exclamation mark is consumed by
    the split, so the quote of the example text is the second sentence
    without it, followed by the appended period. *)
Theorem pull_quote_summer :
  _extract_pull_quote summer_text 150 = Some "I will always remember that summer.".
Proof. reflexivity. Qed.

(** C5, as stated: the quote returned for the example text is not the
    sentence with its exclamation mark kept before the period. *)
Lemma pull_quote_summer_keeps_no_bang :
  count_char "!" summer_text = 1%nat
  /\ (forall quote, _extract_pull_quote summer_text 150 = Some quote ->
        count_char "!" quote = 0%nat)
  /\ _extract_pull_quote summer_text 150 <> Some "I will always remember that summer!.".
Proof.
  split_and!.
  - reflexivity.
  - intros quote H. vm_compute in H. injection H as <-. reflexivity.
  - intros H. vm_compute in H. discriminate H.
Qed.

(** C9: a returned pull quote holds no exclamation mark and no question
    mark, and exactly one period, which is its last character. *)
Theorem pull_quote_punctuation (text : string) (max_length : Z) (quote : string) :
  _extract_pull_quote text max_length = Some quote ->
  count_char "!" quote = 0%nat /\ count_char "?" quote = 0%nat
  /\ count_char "." quote = 1%nat /\ last_char quote = Some "."%char.
Proof.
  intros H. apply pull_quote_shape in H as (clean & Hclean & Hquote).
  assert (forall c, is_terminator c = true ->
            length (filter (fun a => a = c) clean) = 0%nat) as Hnone.
  { intros c Hc. by apply no_terminator_count. }
  unfold last_char. rewrite !count_char_s2l, Hquote, !filter_app, !length_app.
  rewrite !Hnone by done. rewrite last_snoc. done.
Qed.

Lemma pull_quote_punctuation_witness :
  count_char "!" "I will always remember that summer." = 0%nat
  /\ count_char "?" "I will always remember that summer." = 0%nat
  /\ count_char "." "I will always remember that summer." = 1%nat
  /\ last_char "I will always remember that summer." = Some "."%char.
Proof. apply (pull_quote_punctuation summer_text 150). reflexivity. Defined.


(** ** The score of a photo *)

Section Score.

Variable family_names : list string.

Lemma fold_names_sum (f : string -> bool) (names : list string) (z : Z) :
  fold_left (fun score name => if f name then score + 30 else score) names z
  = z + 30 * Z.of_nat (length (List.filter f names)).
Proof.
  revert z. induction names as [|name names IH]; intros z; simpl; [lia|].
  rewrite IH. destruct (f name); simpl; lia.
Qed.

Lemma fold_keywords_sum (f : string -> bool) (keywords : gset string) (z : Z) :
  set_fold (fun keyword score => if f keyword then score + 5 else score) z keywords
  = z + 5 * Z.of_nat (size (filter (fun keyword => f keyword = true) keywords)).
Proof.
  apply (set_fold_ind_L
           (fun r X => r = z + 5 * Z.of_nat (size (filter (fun keyword => f keyword = true) X)))).
  - rewrite filter_empty_L, size_empty; [lia | apply _].
  - intros x X r Hx ->.
    rewrite filter_union_L by apply _. rewrite size_union.
    + destruct (f x) eqn:Hfx.
      * rewrite filter_singleton_True_L by (done || apply _). rewrite size_singleton. lia.
      * rewrite filter_singleton_False_L by (congruence || apply _). rewrite size_empty. lia.
    + intros y Hy1 Hy2. apply elem_of_filter in Hy1 as [_ Hy1], Hy2 as [_ Hy2].
      apply elem_of_singleton in Hy1 as ->. done.
Qed.

Lemma year_points_eq (chapter_year photo_year : option Z) :
  match chapter_year, photo_year with
  | Some chapter_year, Some photo_year =>
      if negb (chapter_year =? 0) && negb (photo_year =? 0) then
        let year_diff := Z.abs (photo_year - chapter_year) in
        if year_diff =? 0 then 0 + 100
        else if year_diff <=? 2 then 0 + 50
        else if year_diff <=? 5 then 0 + 20
        else 0
      else 0
  | _, _ => 0
  end = year_term chapter_year photo_year.
Proof.
  unfold year_term. destruct chapter_year as [c|], photo_year as [p|]; try done.
  destruct (c =? 0), (p =? 0); simpl; try done.
Qed.

Lemma photo_score_sum (chapter_title chapter_text : string) (photo : Photo) :
  photo_score family_names chapter_title chapter_text photo
  = year_term (chapter_year_of chapter_title) (year photo)
    + name_term family_names (photo_text_of photo)
        (chapter_combined_of chapter_title chapter_text)
    + keyword_term (photo_text_of photo) (chapter_combined_of chapter_title chapter_text).
Proof.
  unfold photo_score, name_term, keyword_term.
  rewrite fold_keywords_sum, fold_names_sum, year_points_eq. done.
Qed.

Lemma year_term_nonneg (chapter_year photo_year : option Z) :
  0 <= year_term chapter_year photo_year.
Proof. unfold year_term. repeat case_match; lia. Qed.

Lemma photo_score_nonneg (chapter_title chapter_text : string) (photo : Photo) :
  0 <= photo_score family_names chapter_title chapter_text photo.
Proof.
  rewrite photo_score_sum. unfold name_term, keyword_term.
  pose proof (year_term_nonneg (chapter_year_of chapter_title) (year photo)). lia.
Qed.

(** The scoring loop keeps the candidates, in catalog order, with their score. *)
Lemma score_photos_candidates (used_images : gset string)
    (chapter_title chapter_text : string) (available_photos : list Photo) :
  score_photos family_names used_images chapter_title chapter_text available_photos
  = map (fun photo => (photo_score family_names chapter_title chapter_text photo, photo))
        (candidates family_names used_images chapter_title chapter_text available_photos).
Proof.
  unfold candidates. induction available_photos as [|photo rest IH]; simpl; [done|].
  rewrite filter_cons. destruct (decide (filename photo ∈ used_images)) as [Hin|Hnin].
  - rewrite decide_False by (intros [? _]; done). exact IH.
  - destruct (0 <? _) eqn:Hpos.
    + apply Z.ltb_lt in Hpos. rewrite decide_True by done. simpl. by rewrite IH.
    + apply Z.ltb_ge in Hpos. rewrite decide_False by (intros [_ ?]; lia). exact IH.
Qed.

End Score.

(** ** The stable sort by decreasing score *)

Section Sorting.

Lemma insert_by_score_perm (x : Z * Photo) (l : list (Z * Photo)) :
  insert_by_score x l ≡ₚ x :: l.
Proof.
  induction l as [|y l IH]; simpl; [done|].
  destruct (fst x <? fst y); [|done].
  rewrite IH. apply Permutation_swap.
Qed.

Lemma sort_by_score_desc_perm (l : list (Z * Photo)) : sort_by_score_desc l ≡ₚ l.
Proof.
  induction l as [|x l IH]; simpl; [done|].
  rewrite insert_by_score_perm. by rewrite IH.
Qed.

Lemma insert_by_score_sorted (x : Z * Photo) (l : list (Z * Photo)) :
  StronglySorted score_ge l -> StronglySorted score_ge (insert_by_score x l).
Proof.
  induction 1 as [|y l Hl IH Hy]; simpl.
  - repeat constructor.
  - destruct (fst x <? fst y) eqn:Hxy.
    + apply Z.ltb_lt in Hxy. constructor; [exact IH|].
      rewrite insert_by_score_perm. constructor; [unfold score_ge; lia | exact Hy].
    + apply Z.ltb_ge in Hxy. constructor; [by constructor|].
      constructor; [exact Hxy|].
      eapply Forall_impl; [exact Hy|]. unfold score_ge. simpl. intros; lia.
Qed.

Lemma sort_by_score_desc_sorted (l : list (Z * Photo)) :
  StronglySorted score_ge (sort_by_score_desc l).
Proof.
  induction l as [|x l IH]; simpl; [constructor | by apply insert_by_score_sorted].
Qed.

(** Insertion never moves an element past one of the same score. *)
Lemma insert_by_score_stable (s : Z) (x : Z * Photo) (l : list (Z * Photo)) :
  filter (fun a => fst a = s) (insert_by_score x l) = filter (fun a => fst a = s) (x :: l).
Proof.
  induction l as [|y l IH]; simpl; [done|].
  destruct (fst x <? fst y) eqn:Hxy; [|done].
  apply Z.ltb_lt in Hxy.
  rewrite (filter_cons _ y), IH, !(filter_cons _ x), (filter_cons _ y).
  destruct (decide (fst y = s)), (decide (fst x = s)); try done. lia.
Qed.

Lemma sort_by_score_desc_stable (s : Z) (l : list (Z * Photo)) :
  filter (fun a => fst a = s) (sort_by_score_desc l) = filter (fun a => fst a = s) l.
Proof.
  induction l as [|x l IH]; simpl; [done|].
  rewrite insert_by_score_stable, !filter_cons, IH. done.
Qed.

Variable score : Photo -> Z.

Local Abbreviation with_score := (with_score score).
Local Abbreviation ranked := (ranked score).

Lemma sorted_pairs_scored (photos : list Photo) :
  Forall (fun a => fst a = score (snd a)) (sort_by_score_desc (map with_score photos)).
Proof.
  rewrite sort_by_score_desc_perm. apply Forall_fmap, Forall_true. done.
Qed.

Lemma ranked_perm (photos : list Photo) : ranked photos ≡ₚ photos.
Proof.
  unfold ranked. change (map snd) with (fmap (M:=list) (@snd Z Photo)).
  rewrite sort_by_score_desc_perm.
  change (map with_score photos) with (with_score <$> photos).
  rewrite <- list_fmap_compose. by rewrite list_fmap_id.
Qed.

Lemma ranked_sorted (photos : list Photo) :
  StronglySorted (fun a b => score b <= score a) (ranked photos).
Proof.
  unfold ranked.
  pose proof (sort_by_score_desc_sorted (map with_score photos)) as Hsorted.
  pose proof (sorted_pairs_scored photos) as Hscored.
  induction Hsorted as [|a l Hl IH Ha]; simpl; [constructor|].
  apply Forall_cons in Hscored as [Hhd Htl].
  constructor; [by apply IH|].
  apply Forall_fmap. rewrite Forall_forall in Ha, Htl. apply Forall_forall.
  intros b Hb. simpl. specialize (Ha b Hb). specialize (Htl b Hb).
  unfold score_ge in Ha. simpl in Htl. lia.
Qed.

Lemma filter_snd_scored (s : Z) (l : list (Z * Photo)) :
  Forall (fun a => fst a = score (snd a)) l ->
  filter (fun photo => score photo = s) (map snd l) = map snd (filter (fun a => fst a = s) l).
Proof.
  induction 1 as [|a l Ha _ IH]; simpl; [done|].
  rewrite !filter_cons, IH.
  destruct (decide (score (snd a) = s)), (decide (fst a = s)); simpl; congruence.
Qed.

Lemma ranked_stable (s : Z) (photos : list Photo) :
  filter (fun photo => score photo = s) (ranked photos)
  = filter (fun photo => score photo = s) photos.
Proof.
  unfold ranked. rewrite filter_snd_scored by apply sorted_pairs_scored.
  rewrite sort_by_score_desc_stable.
  rewrite <- filter_snd_scored by (apply Forall_fmap, Forall_true; done).
  f_equal. change (map snd (map with_score photos)) with (snd <$> (with_score <$> photos)).
  rewrite <- list_fmap_compose. by rewrite list_fmap_id.
Qed.

End Sorting.

(** ** One call of the matcher *)

Section MatcherCall.

Variable family_names : list string.
Variable used_images : gset string.
Variables chapter_title chapter_text : string.
Variable available_photos : list Photo.

Local Abbreviation score := (photo_score family_names chapter_title chapter_text).
Local Abbreviation cands :=
  (candidates family_names used_images chapter_title chapter_text available_photos).
Local Abbreviation call :=
  (_match_photos_to_chapter family_names used_images chapter_title chapter_text available_photos).

Lemma mark_used_union (used : gset string) (selected : list Photo) :
  mark_used used selected = used ∪ list_to_set (filename <$> selected).
Proof.
  revert used. induction selected as [|photo rest IH]; intros used; simpl.
  - by rewrite union_empty_r_L.
  - rewrite IH. by rewrite (assoc_L (∪)).
Qed.

(** The call in closed form: a slice of the ranked candidates, and the used
    set extended by their filenames. *)
Lemma match_call_eq (max_photos : Z) :
  call max_photos
  = (slice_to max_photos (ranked score cands),
     used_images ∪ list_to_set (filename <$> slice_to max_photos (ranked score cands))).
Proof.
  assert (forall (l : list (Z * Photo)), map snd (slice_to max_photos l)
                                         = slice_to max_photos (map snd l)) as Hslice.
  { intros l. unfold slice_to. rewrite length_map.
    destruct (0 <=? max_photos); apply fmap_take. }
  unfold _match_photos_to_chapter. destruct available_photos as [|photo rest] eqn:Havail.
  - unfold candidates, ranked, slice_to. simpl.
    destruct (0 <=? max_photos); simpl; rewrite ?take_nil; simpl; by rewrite union_empty_r_L.
  - rewrite <- Havail. rewrite mark_used_union, Hslice, score_photos_candidates. done.
Qed.

Lemma slice_to_sublist {A} (n : Z) (l : list A) : slice_to n l `sublist_of` l.
Proof. unfold slice_to. destruct (0 <=? n); apply sublist_take. Qed.

Lemma slice_to_count {A} (n : nat) (l : list A) : slice_to (Z.of_nat n) l = take n l.
Proof.
  unfold slice_to. destruct (0 <=? Z.of_nat n) eqn:H.
  - by rewrite Nat2Z.id.
  - apply Z.leb_gt in H. lia.
Qed.

(** Every photo returned is a candidate: it is in the catalog, it was not
    used before the call, and its score is positive. *)
Lemma match_selected_candidates (max_photos : Z) (photo : Photo) :
  photo ∈ (call max_photos).1 ->
  photo ∈ available_photos /\ (filename photo ∉ used_images) /\ 0 < score photo.
Proof.
  rewrite match_call_eq. simpl. intros Hin.
  assert (photo ∈ cands) as Hc.
  { rewrite <- (ranked_perm score cands).
    eapply elem_of_submseteq; [exact Hin | apply sublist_submseteq, slice_to_sublist]. }
  unfold candidates in Hc. apply list_elem_of_filter in Hc. tauto.
Qed.

Lemma match_used_after (max_photos : Z) :
  (call max_photos).2 = used_images ∪ list_to_set (filename <$> (call max_photos).1).
Proof. rewrite match_call_eq. done. Qed.

(** With distinct filenames in the catalog the photos of one call have
    distinct filenames. *)
Lemma match_selected_NoDup (max_photos : Z) :
  NoDup (filename <$> available_photos) -> NoDup (filename <$> (call max_photos).1).
Proof.
  intros Hnd. rewrite match_call_eq. simpl.
  eapply sublist_NoDup; [|apply fmap_sublist, slice_to_sublist].
  rewrite (ranked_perm score cands).
  eapply sublist_NoDup; [exact Hnd | apply fmap_sublist, sublist_filter].
Qed.

End MatcherCall.

(** Whenever neither year is the integer 0 the score is the sum in the
    words of the specification. *)
Lemma score_as_specified_nonzero_years (family_names : list string)
    (chapter_title chapter_text : string) (photo : Photo) :
  chapter_year_of chapter_title <> Some 0 -> year photo <> Some 0 ->
  photo_score family_names chapter_title chapter_text photo
  = score_as_specified family_names chapter_title chapter_text photo.
Proof.
  intros Hc Hp. rewrite photo_score_sum. unfold score_as_specified. do 2 f_equal.
  unfold year_term, year_term_as_specified.
  destruct (chapter_year_of chapter_title) as [c|]; [|done].
  destruct (year photo) as [p|]; [|done].
  assert (c <> 0) by congruence. assert (p <> 0) by congruence.
  destruct (Z.eqb_spec c 0), (Z.eqb_spec p 0); done.
Qed.

(** C3, as the code has it: the score of a photo is the sum of the year
    term (100, 50 or 20 for a distance of 0, at most 2 or at most 5 years, and
    0 otherwise, also when a year is missing or is 0), 30 per family name
    found in both texts and 5 per distinct chapter keyword found in the
    photo's text; a photo whose score is 0 is in no result of the matcher. *)
Theorem score_is_sum_of_terms (family_names : list string)
    (chapter_title chapter_text : string) (photo : Photo) :
  photo_score family_names chapter_title chapter_text photo
  = year_term (chapter_year_of chapter_title) (year photo)
    + name_term family_names (photo_text_of photo)
        (chapter_combined_of chapter_title chapter_text)
    + keyword_term (photo_text_of photo) (chapter_combined_of chapter_title chapter_text)
  /\ forall (used_images : gset string) (available_photos : list Photo) (max_photos : Z),
       photo_score family_names chapter_title chapter_text photo = 0 ->
       photo ∉ (_match_photos_to_chapter family_names used_images chapter_title chapter_text
                  available_photos max_photos).1.
Proof.
  split; [apply photo_score_sum|].
  intros used_images available_photos max_photos Hzero Hin.
  apply match_selected_candidates in Hin as (_ & _ & Hpos). lia.
Qed.

(** A photo of 1980 with no text has score 0 for a chapter about 1990 and
    is not matched to it. *)
Lemma score_is_sum_of_terms_witness :
  photo_score [] "Summer 1990" "We went to the beach."
    (mkPhoto 7 "old.jpg" "" "" (Some 1980) "") = 0
  /\ mkPhoto 7 "old.jpg" "" "" (Some 1980) ""
     ∉ (_match_photos_to_chapter [] ∅ "Summer 1990" "We went to the beach."
          [mkPhoto 7 "old.jpg" "" "" (Some 1980) ""] 3).1.
Proof.
  split; [vm_compute; reflexivity|].
  apply (proj2 (score_is_sum_of_terms [] "Summer 1990" "We went to the beach."
                  (mkPhoto 7 "old.jpg" "" "" (Some 1980) ""))).
  vm_compute. reflexivity.
Defined.

(** C3, as stated: for a chapter whose title carries the year 0000 and a
    photo of the year 2 the specified sum is 50 and would keep the photo;
    the score of the code is 0 and the photo is left out.  The same happens
    to a photo whose year is 0 in a chapter of the year 0002. *)
Lemma score_differs_for_year_zero :
  chapter_year_of "The year 0000" = Some 0
  /\ score_as_specified [] "The year 0000" "" early_photo = 50
  /\ photo_score [] "The year 0000" "" early_photo = 0
  /\ (_match_photos_to_chapter [] ∅ "The year 0000" "" [early_photo] 3).1 = []
  /\ photo_score [] "The year 0000" "" early_photo
     <> score_as_specified [] "The year 0000" "" early_photo
  /\ photo_score [] "The year 0002" "" year_zero_photo
     <> score_as_specified [] "The year 0002" "" year_zero_photo.
Proof. split_and!; vm_compute; (reflexivity || discriminate). Qed.

(** C4: the matcher returns the first [max_photos] photos of the candidates
    arranged by decreasing score, photos of equal score staying in catalog
    order, and the filenames of the photos it returns are in the used set
    after the call. *)
Theorem match_returns_top_candidates (family_names : list string)
    (used_images : gset string) (chapter_title chapter_text : string)
    (available_photos : list Photo) (max_photos : nat) :
  let score := photo_score family_names chapter_title chapter_text in
  let cands := candidates family_names used_images chapter_title chapter_text available_photos in
  let call := _match_photos_to_chapter family_names used_images chapter_title chapter_text
                available_photos (Z.of_nat max_photos) in
  exists order : list Photo,
    order ≡ₚ cands
    /\ StronglySorted (fun a b => score b <= score a) order
    /\ (forall s : Z, filter (fun p => score p = s) order = filter (fun p => score p = s) cands)
    /\ call.1 = take max_photos order
    /\ (length call.1 <= max_photos)%nat
    /\ call.2 = used_images ∪ list_to_set (filename <$> call.1)
    /\ (forall p : Photo, p ∈ call.1 -> filename p ∈ call.2).
Proof.
  intros score cands call. exists (ranked score cands).
  assert (call.1 = take max_photos (ranked score cands)) as H1.
  { subst call. rewrite match_call_eq. simpl. apply slice_to_count. }
  assert (call.2 = used_images ∪ list_to_set (filename <$> call.1)) as H2.
  { subst call. apply match_used_after. }
  split; [apply ranked_perm|].
  split; [apply ranked_sorted|].
  split; [intros s; apply ranked_stable|].
  split; [exact H1|].
  split; [rewrite H1, length_take; lia|].
  split; [exact H2|].
  intros p Hp. rewrite H2. apply elem_of_union_r, elem_of_list_to_set.
  by apply list_elem_of_fmap_2.
Qed.


(** ** Layout selection *)

(** C6: [_create_chapter_html] follows the decision table with strict
    thresholds on the length of the emphasis-applied text: with one photo,
    more than 800 characters give the facing spread (801 does, 800 does
    not), more than 400 the embedded image, otherwise the simple layout;
    two or more photos give the grid, no photo the simple layout.  The
    markup of the chapter is, in each case, the heading followed by the
    composition of that layout and of no other. *)
Theorem layout_decision_table (family_names : list string)
    (_get_safe_photo_path : string -> string -> option string)
    (chapter : Chapter) (photos : list Photo) (upload_folder : string) :
  let text := _highlight_names family_names (narrative chapter) in
  let text_length := String.length text in
  let pull_quote := _extract_pull_quote text 150 in
  let layout := select_layout photos text_length in
  let html :=
    _create_chapter_html family_names _get_safe_photo_path chapter photos upload_folder in
  let framed body :=
    div "chapter" +:+ "<h2 class=" +:+ q "chapter-title" +:+ ">" +:+ chapter_title chapter
    +:+ "</h2>" +:+ body +:+ "</div>" in
  ((length photos = 1 -> text_length = 801 -> layout = FacingSpread)%nat
   /\ (length photos = 1 -> text_length = 800 -> layout = EmbeddedImage)%nat
   /\ (length photos = 1 -> (800 < text_length <-> layout = FacingSpread))%nat
   /\ (length photos = 1 -> 400 < text_length <= 800 -> layout = EmbeddedImage)%nat
   /\ (length photos = 1 -> text_length <= 400 -> layout = Simple)%nat
   /\ (2 <= length photos -> layout = GridWithText)%nat
   /\ (length photos = 0 -> layout = Simple)%nat)
  /\ ((length photos = 1 -> 800 < text_length ->
       html = framed (facing_spread_body _get_safe_photo_path text pull_quote photos
                        upload_folder))%nat
      /\ (length photos = 1 -> 400 < text_length <= 800 ->
          html = framed (embedded_image_body _get_safe_photo_path text photos upload_folder))%nat
      /\ (length photos = 1 -> text_length <= 400 ->
          html = framed (simple_body _get_safe_photo_path text pull_quote photos upload_folder
                           text_length))%nat
      /\ (2 <= length photos ->
          html = framed (grid_with_text_body _get_safe_photo_path text pull_quote photos
                           upload_folder text_length))%nat
      /\ (length photos = 0 ->
          html = framed (simple_body _get_safe_photo_path text pull_quote photos upload_folder
                           text_length))%nat).
Proof.
  intros text text_length pull_quote layout html framed.
  assert (forall n : nat,
            (length photos = 1 -> n = 801 -> select_layout photos n = FacingSpread)
            /\ (length photos = 1 -> n = 800 -> select_layout photos n = EmbeddedImage)
            /\ (length photos = 1 -> (800 < n <-> select_layout photos n = FacingSpread))
            /\ (length photos = 1 -> 400 < n <= 800 -> select_layout photos n = EmbeddedImage)
            /\ (length photos = 1 -> n <= 400 -> select_layout photos n = Simple)
            /\ (2 <= length photos -> select_layout photos n = GridWithText)
            /\ (length photos = 0 -> select_layout photos n = Simple))%nat as Htable.
  { intros n. unfold select_layout.
    destruct (Nat.ltb_spec 0 (length photos)), (Nat.eqb_spec (length photos) 1),
      (Nat.leb_spec 2 (length photos)), (Nat.ltb_spec 800 n), (Nat.ltb_spec 400 n);
      simpl; repeat split; intros; try lia; try done. }
  destruct (Htable text_length) as (H801 & H800 & Hfacing & Hembedded & Hsimple & Hgrid & Hnone).
  split; [exact (Htable text_length)|].
  assert (forall chosen body,
            select_layout photos text_length = chosen ->
            match chosen with
            | FacingSpread =>
                facing_spread_body _get_safe_photo_path text pull_quote photos upload_folder
            | GridWithText =>
                grid_with_text_body _get_safe_photo_path text pull_quote photos upload_folder
                  text_length
            | EmbeddedImage => embedded_image_body _get_safe_photo_path text photos upload_folder
            | Simple =>
                simple_body _get_safe_photo_path text pull_quote photos upload_folder text_length
            end = body ->
            html = framed body) as Hrender.
  { intros chosen body Hchosen <-. subst html framed. unfold _create_chapter_html.
    fold text. fold text_length. fold pull_quote. rewrite Hchosen. reflexivity. }
  split_and!.
  - intros Hone Hlong. apply (Hrender FacingSpread); [by apply Hfacing | done].
  - intros Hone Hmid. apply (Hrender EmbeddedImage); [by apply Hembedded | done].
  - intros Hone Hshort. apply (Hrender Simple); [by apply Hsimple | done].
  - intros Hmany. apply (Hrender GridWithText); [by apply Hgrid | done].
  - intros Hzero. apply (Hrender Simple); [by apply Hnone | done].
Qed.

Lemma layout_decision_table_witness :
  let html_801 :=
    _create_chapter_html [] every_file (mkChapter "Our year" narrative_801) [beach_photo]
      "/uploads" in
  let html_800 :=
    _create_chapter_html [] every_file (mkChapter "Our year" narrative_800) [beach_photo]
      "/uploads" in
  (select_layout [beach_photo] (String.length (_highlight_names [] narrative_801)) = FacingSpread
   /\ select_layout [beach_photo] (String.length (_highlight_names [] narrative_800))
      = EmbeddedImage)
  /\ (contains (div "fullpage-image") html_801 = true
      /\ contains (div "image-embed") html_801 = false)
  /\ (contains (div "fullpage-image") html_800 = false
      /\ contains (div "image-embed") html_800 = true).
Proof.
  intros html_801 html_800. subst html_801 html_800.
  pose proof (layout_decision_table [] every_file (mkChapter "Our year" narrative_801)
                [beach_photo] "/uploads") as ((H801 & _) & (Hfacing & _)).
  pose proof (layout_decision_table [] every_file (mkChapter "Our year" narrative_800)
                [beach_photo] "/uploads") as ((_ & H800 & _) & (_ & Hembedded & _)).
  split_and!.
  - apply H801; vm_compute; reflexivity.
  - apply H800; vm_compute; reflexivity.
  - rewrite Hfacing by (vm_compute; first [reflexivity | lia]). vm_compute. reflexivity.
  - rewrite Hfacing by (vm_compute; first [reflexivity | lia]). vm_compute. reflexivity.
  - rewrite Hembedded by (vm_compute; first [reflexivity | lia]). vm_compute. reflexivity.
  - rewrite Hembedded by (vm_compute; first [reflexivity | lia]). vm_compute. reflexivity.
Defined.

(** ** A photo whose file cannot be resolved *)

Section UnresolvedPhoto.

Variable family_names : list string.
Variable _get_safe_photo_path : string -> string -> option string.
Variable chapter : Chapter.
Variable photo : Photo.
Variable upload_folder : string.

Hypothesis unresolved : _get_safe_photo_path upload_folder (filename photo) = None.

Local Abbreviation text := (_highlight_names family_names (narrative chapter)).
Local Abbreviation html :=
  (_create_chapter_html family_names _get_safe_photo_path chapter [photo] upload_folder).
Local Abbreviation framed body :=
  (div "chapter" +:+ "<h2 class=" +:+ q "chapter-title" +:+ ">" +:+ chapter_title chapter
   +:+ "</h2>" +:+ body +:+ "</div>").

(** In the embedded-image layout only the image block is left out. *)
Lemma embedded_image_unresolved :
  select_layout [photo] (String.length text) = EmbeddedImage ->
  html = framed (div "chapter-narrative"
                 +:+ match paragraphs_of text with first :: _ => p_tag first | [] => "" end
                 +:+ "</div>" +:+ ""
                 +:+ div "chapter-narrative"
                 +:+ concat_str (map p_tag (drop 1 (paragraphs_of text)))
                 +:+ "</div>").
Proof.
  intros Hlayout. unfold _create_chapter_html. rewrite Hlayout.
  unfold embedded_image_body. rewrite unresolved. reflexivity.
Qed.

(** In the simple layout the text and the pull quote stay, the grid is empty. *)
Lemma simple_unresolved :
  select_layout [photo] (String.length text) = Simple ->
  html = framed ("<div class=" +:+ q ("chapter-narrative " +:+ column_class (String.length text))
                 +:+ ">"
                 +:+ concat_str (map p_tag (paragraphs_of text))
                 +:+ "</div>"
                 +:+ pull_quote_html (_extract_pull_quote text 150)
                 +:+ "<div class=" +:+ q "photo-section" +:+ ">" +:+ div "photo-grid photo-grid-1"
                 +:+ "" +:+ "</div></div>").
Proof.
  intros Hlayout. unfold _create_chapter_html. rewrite Hlayout.
  unfold simple_body, _create_photo_layout. simpl. rewrite unresolved. reflexivity.
Qed.

(** In the facing-spread layout nothing of the chapter but its heading is
    produced: the paragraphs and the pull quote are lost with the image. *)
Lemma facing_spread_unresolved :
  select_layout [photo] (String.length text) = FacingSpread ->
  html = framed "".
Proof.
  intros Hlayout. unfold _create_chapter_html. rewrite Hlayout.
  unfold facing_spread_body. rewrite unresolved. reflexivity.
Qed.

End UnresolvedPhoto.

(** C7, at a failing input: a chapter of 801 characters whose single photo
    has no file is rendered as its heading alone, although it has a
    paragraph; with 800 characters the same chapter keeps its paragraph. *)
Theorem facing_spread_loses_text :
  paragraphs_of (_highlight_names [] narrative_801) = [narrative_801]
  /\ _create_chapter_html [] no_file (mkChapter "Our year" narrative_801) [beach_photo] "/uploads"
     = div "chapter" +:+ "<h2 class=" +:+ q "chapter-title" +:+ ">Our year</h2>" +:+ "</div>"
  /\ contains (p_tag narrative_801)
       (_create_chapter_html [] no_file (mkChapter "Our year" narrative_801)
          [beach_photo] "/uploads") = false
  /\ contains (p_tag narrative_800)
       (_create_chapter_html [] no_file (mkChapter "Our year" narrative_800)
          [beach_photo] "/uploads") = true.
Proof. repeat split; vm_compute; reflexivity. Qed.


(** ** Sequences of matcher calls *)

Section Calls.

Variable family_names : list string.
Variable available_photos : list Photo.

Local Abbreviation Calls := (MatcherCalls family_names available_photos).

Lemma calls_app (u0 u1 u2 : gset string) (c1 c2 : list (list Photo)) :
  Calls u0 c1 u1 -> Calls u1 c2 u2 -> Calls u0 (c1 ++ c2) u2.
Proof. induction 1; intros; simpl; [done | constructor; auto]. Qed.

(** The used set only grows, by the filenames of the photos returned. *)
Lemma calls_used (u0 u1 : gset string) (calls : list (list Photo)) :
  Calls u0 calls u1 -> u1 = u0 ∪ list_to_set (filename <$> concat calls).
Proof.
  induction 1 as [u|u t x n calls u' _ IH]; simpl.
  - by rewrite union_empty_r_L.
  - rewrite IH, match_used_after, fmap_app, list_to_set_app_L. by rewrite (assoc_L (∪)).
Qed.

(** No call returns a photo whose filename was used before the sequence. *)
Lemma calls_fresh (u0 u1 : gset string) (calls : list (list Photo)) (photo : Photo) :
  Calls u0 calls u1 -> photo ∈ concat calls ->
  (filename photo ∉ u0) /\ photo ∈ available_photos.
Proof.
  induction 1 as [u|u t x n calls u' _ IH]; simpl; intros Hin.
  - by apply elem_of_nil in Hin.
  - apply elem_of_app in Hin as [Hin|Hin].
    + apply match_selected_candidates in Hin. tauto.
    + destruct (IH Hin) as [Hnot Hav]. split; [|done].
      rewrite match_used_after in Hnot. intros Hu. apply Hnot. by apply elem_of_union_l.
Qed.

(** With distinct filenames in the catalog, no filename is returned twice
    in a sequence of calls: neither by one call nor by two of them. *)
Lemma calls_NoDup (u0 u1 : gset string) (calls : list (list Photo)) :
  NoDup (filename <$> available_photos) ->
  Calls u0 calls u1 -> NoDup (filename <$> concat calls).
Proof.
  intros Hnd. induction 1 as [u|u t x n calls u' Hcalls IH]; simpl; [constructor|].
  rewrite fmap_app. apply NoDup_app. split; [by apply match_selected_NoDup|]. split; [|done].
  intros name Hsel Hlater. apply list_elem_of_fmap in Hlater as (photo & -> & Hphoto).
  destruct (calls_fresh _ _ _ _ Hcalls Hphoto) as [Hnot _]. apply Hnot.
  rewrite match_used_after. by apply elem_of_union_r, elem_of_list_to_set.
Qed.

(** After each call the used set has grown by the number of photos returned. *)
Lemma match_used_size (used_images : gset string) (chapter_title chapter_text : string)
    (max_photos : Z) :
  NoDup (filename <$> available_photos) ->
  size (_match_photos_to_chapter family_names used_images chapter_title chapter_text
          available_photos max_photos).2
  = (size used_images
     + length (_match_photos_to_chapter family_names used_images chapter_title chapter_text
                 available_photos max_photos).1)%nat.
Proof.
  intros Hnd. rewrite match_used_after, size_union.
  - rewrite size_list_to_set by (by apply match_selected_NoDup). by rewrite length_fmap.
  - intros name Hused Hsel. apply elem_of_list_to_set, list_elem_of_fmap in Hsel as (photo & -> & Hphoto).
    apply match_selected_candidates in Hphoto. tauto.
Qed.

Lemma calls_split (u0 u2 : gset string) (c1 c2 : list (list Photo)) :
  Calls u0 (c1 ++ c2) u2 -> exists u1, Calls u0 c1 u1 /\ Calls u1 c2 u2.
Proof.
  revert u0. induction c1 as [|sel c1 IH]; intros u0; simpl.
  - intros H. exists u0. split; [constructor | done].
  - inversion 1 as [|u t x n calls u' Hrest]; subst.
    destruct (IH _ Hrest) as (u1 & H1 & H2). exists u1. split; [by constructor | done].
Qed.

(** Monotonic exclusion: a filename returned by one call is never returned
    by a later call of the same sequence. *)
Lemma calls_never_repeat (u0 u2 : gset string) (earlier later : list (list Photo))
    (p q : Photo) :
  Calls u0 (earlier ++ later) u2 ->
  p ∈ concat earlier -> q ∈ concat later -> filename p <> filename q.
Proof.
  intros Hcalls Hp Hq Heq. apply calls_split in Hcalls as (u1 & H1 & H2).
  destruct (calls_fresh _ _ _ _ H2 Hq) as [Hnot _]. apply Hnot.
  rewrite (calls_used _ _ _ H1), <- Heq.
  by apply elem_of_union_r, elem_of_list_to_set, list_elem_of_fmap_2.
Qed.

End Calls.

(** ** The loops of the generator as sequences of matcher calls *)

Section Run.

Variable _get_safe_photo_path : string -> string -> option string.
Variable family_names : list string.
Variable upload_folder : string.
Variable available_photos : list Photo.

Lemma collect_thumbnails_calls (chapters : list Chapter) (thumbnails : gmap string string)
    (used_images : gset string) :
  MatcherCalls family_names available_photos used_images
    (collect_thumbnails _get_safe_photo_path family_names upload_folder available_photos
       chapters thumbnails used_images).1.1
    (collect_thumbnails _get_safe_photo_path family_names upload_folder available_photos
       chapters thumbnails used_images).2.
Proof.
  revert thumbnails used_images. induction chapters as [|chapter rest IH]; intros thumbnails used_images.
  - constructor.
  - simpl.
    destruct (_match_photos_to_chapter family_names used_images (chapter_title chapter)
                (narrative chapter) available_photos 1) as [selected used1] eqn:Hcall.
    match goal with
    | |- context [collect_thumbnails _ _ _ _ rest ?t used1] => specialize (IH t used1)
    end.
    destruct (collect_thumbnails _ _ _ _ rest _ used1) as [[calls thumbs] used2]. simpl in *.
    replace selected with (_match_photos_to_chapter family_names used_images (chapter_title chapter)
                (narrative chapter) available_photos 1).1 by (by rewrite Hcall).
    constructor. by rewrite Hcall.
Qed.

Lemma render_chapters_calls (chapters : list Chapter) (used_images : gset string) :
  MatcherCalls family_names available_photos used_images
    (render_chapters _get_safe_photo_path family_names upload_folder available_photos
       chapters used_images).1.1.1
    (render_chapters _get_safe_photo_path family_names upload_folder available_photos
       chapters used_images).2.
Proof.
  revert used_images. induction chapters as [|chapter rest IH]; intros used_images.
  - constructor.
  - simpl.
    destruct (_match_photos_to_chapter family_names used_images (chapter_title chapter)
                (narrative chapter) available_photos 3) as [selected used1] eqn:Hcall.
    specialize (IH used1).
    destruct (render_chapters _ _ _ _ rest used1) as [[[calls html] events] used2]. simpl in *.
    replace selected with (_match_photos_to_chapter family_names used_images (chapter_title chapter)
                (narrative chapter) available_photos 3).1 by (by rewrite Hcall).
    constructor. by rewrite Hcall.
Qed.

End Run.


(** ** Whole runs *)

Section WholeRun.

Variable _get_safe_photo_path : string -> string -> option string.
Variable today : string.
Variable write_pdf : string -> string -> Outcome string.
Variable self_family_names : list string.
Variable chapters : list Chapter.
Variables title subtitle upload_folder : string.
Variable db_connection : option QueryOutcome.
Variable hero_photo : option string.
Variable family_names : option (list string).

Local Abbreviation run :=
  (generate_biography_pdf _get_safe_photo_path today write_pdf self_family_names chapters
     title subtitle upload_folder db_connection hero_photo family_names).
Local Abbreviation catalog := (load_photos db_connection).1.
Local Abbreviation cover_step :=
  (select_cover _get_safe_photo_path upload_folder hero_photo catalog ∅).

(** The matcher calls of a run, those of the table of contents followed by
    those of the chapters, start from the used set left by the cover. *)
Lemma run_calls :
  exists names : list string,
    MatcherCalls names catalog cover_step.2 (toc_photos run ++ chapter_photos run)
      (used_images run)
    /\ cover_filename run = snd <$> cover_step.1.
Proof.
  unfold generate_biography_pdf.
  match goal with
  | |- context [collect_thumbnails _ ?names _ _ _ _ _] => set (fam := names)
  end.
  destruct (load_photos db_connection) as [avail log1]. simpl.
  destruct (select_cover _ _ _ avail ∅) as [cover used1]. simpl.
  pose proof (collect_thumbnails_calls _get_safe_photo_path fam upload_folder avail
                chapters ∅ used1) as Htoc.
  destruct (collect_thumbnails _ _ _ _ _ _ used1) as [[toc thumbs] used2]. simpl in Htoc.
  pose proof (render_chapters_calls _get_safe_photo_path fam upload_folder avail
                chapters used2) as Hch.
  destruct (render_chapters _ _ _ _ _ used2) as [[[ch html] events] used3]. simpl in Hch.
  simpl. exists fam. split; [by eapply calls_app | done].
Qed.

(** An automatically chosen cover photo is in the used set. *)
Lemma auto_cover_marked_used (name : string) :
  if_truthy hero_photo = None ->
  snd <$> cover_step.1 = Some name -> name ∈ cover_step.2.
Proof.
  unfold select_cover. intros ->.
  destruct catalog as [|first rest]; [done|].
  destruct (auto_select_cover _ _ _) as [[path chosen]|].
  - simpl. intros [= ->]. by apply elem_of_union_r, elem_of_singleton.
  - destruct (if_truthy _); simpl; [|done].
    intros [= ->]. by apply elem_of_union_r, elem_of_singleton.
Qed.

(** Without an explicit hero photo and with distinct filenames in the
    catalog, no filename is selected twice by a run. *)
Lemma auto_cover_no_duplicates :
  if_truthy hero_photo = None ->
  NoDup (filename <$> catalog) ->
  NoDup (shown_filenames run).
Proof.
  intros Hhero Hnd. destruct run_calls as (names & Hcalls & Hcover).
  unfold shown_filenames. rewrite <- fmap_app, <- concat_app.
  apply NoDup_app. split; [|split].
  - destruct (cover_filename run); simpl; [apply NoDup_singleton | constructor].
  - intros name Hname Hin.
    destruct (cover_filename run) as [chosen|] eqn:Hchosen; simpl in Hname;
      [|by apply elem_of_nil in Hname].
    apply list_elem_of_singleton in Hname as ->.
    apply list_elem_of_fmap in Hin as (photo & -> & Hphoto).
    destruct (calls_fresh _ _ _ _ _ _ Hcalls Hphoto) as [Hnot _]. apply Hnot.
    apply auto_cover_marked_used; [done | by rewrite <- Hcover].
  - by eapply calls_NoDup.
Qed.

(** A photo consumed as a thumbnail of the table of contents is in no
    chapter body. *)
Lemma toc_photo_not_in_chapters (p q : Photo) :
  p ∈ concat (toc_photos run) -> q ∈ concat (chapter_photos run) ->
  filename p <> filename q.
Proof.
  destruct run_calls as (names & Hcalls & _). intros Hp Hq.
  by eapply calls_never_repeat.
Qed.

(** An explicitly given hero photo is never marked as used: the matcher
    calls of the run start from the empty set. *)
Lemma hero_cover_not_marked (hero : string) :
  if_truthy hero_photo = Some hero -> cover_step.2 = ∅.
Proof. unfold select_cover. intros ->. by destruct (if_truthy _). Qed.

End WholeRun.

(** ** A run without catalog *)

Section EmptyCatalog.

Variable _get_safe_photo_path : string -> string -> option string.
Variable family_names : list string.
Variable upload_folder : string.

Lemma collect_thumbnails_empty (chapters : list Chapter) (thumbnails : gmap string string)
    (used_images : gset string) :
  collect_thumbnails _get_safe_photo_path family_names upload_folder [] chapters
    thumbnails used_images
  = (map (fun _ => []) chapters, thumbnails, used_images).
Proof.
  induction chapters as [|chapter rest IH]; simpl; [done | by rewrite IH].
Qed.

Lemma render_chapters_empty (chapters : list Chapter) (used_images : gset string) :
  render_chapters _get_safe_photo_path family_names upload_folder [] chapters used_images
  = (map (fun _ => []) chapters,
     concat_str (map (fun chapter =>
                        _create_chapter_html family_names _get_safe_photo_path chapter []
                          upload_folder) chapters),
     [], used_images).
Proof.
  induction chapters as [|chapter rest IH]; simpl; [done | by rewrite IH].
Qed.

Lemma concat_no_photos (chapters : list Chapter) :
  concat (map (fun _ : Chapter => @nil Photo) chapters) = [].
Proof. induction chapters; simpl; done. Qed.

(** Without photos a chapter is laid out in the simple layout. *)
Lemma no_photos_simple (text_length : nat) : select_layout [] text_length = Simple.
Proof. reflexivity. Qed.

End EmptyCatalog.

(** C8, as the code has it: when loading the catalog raises, the run is the
    run on an empty catalog: the same markup goes to the renderer and the
    renderer's outcome is returned, the failure is logged as an error
    event, no thumbnail and no chapter photo is chosen and nothing is marked
    used; the cover still carries an explicitly given hero photo, and only
    without one the document has no image at all. *)
Theorem catalog_failure_degrades (_get_safe_photo_path : string -> string -> option string)
    (today : string) (write_pdf : string -> string -> Outcome string)
    (self_family_names : list string) (chapters : list Chapter)
    (title subtitle upload_folder : string) (hero_photo : option string)
    (family_names : option (list string)) (e : string) :
  let failed := generate_biography_pdf _get_safe_photo_path today write_pdf self_family_names
                  chapters title subtitle upload_folder (Some (QueryRaises e)) hero_photo
                  family_names in
  let empty := generate_biography_pdf _get_safe_photo_path today write_pdf self_family_names
                 chapters title subtitle upload_folder (Some (QueryRows [])) hero_photo
                 family_names in
  html_content failed = html_content empty
  /\ result failed = result empty
  /\ result failed = write_pdf (html_content failed) upload_folder
  /\ ErrorLoadingPhotos e ∈ log failed
  /\ chapter_thumbnails failed = ∅
  /\ concat (toc_photos failed) = []
  /\ concat (chapter_photos failed) = []
  /\ used_images failed = ∅
  /\ cover_photo_path failed
     = match if_truthy hero_photo with
       | Some hero => if_truthy (_get_safe_photo_path upload_folder hero)
       | None => None
       end
  /\ (if_truthy hero_photo = None -> text_only failed).
Proof.
  intros failed empty. subst failed empty. unfold generate_biography_pdf, text_only. simpl.
  match goal with
  | |- context [collect_thumbnails _ ?names _ _ _ _ _] => generalize names
  end.
  intros names.
  assert (select_cover _get_safe_photo_path upload_folder hero_photo [] ∅
          = (match if_truthy hero_photo with
             | Some hero =>
                 match if_truthy (_get_safe_photo_path upload_folder hero) with
                 | Some path => Some (path, hero)
                 | None => None
                 end
             | None => None
             end, ∅)) as ->.
  { unfold select_cover. destruct (if_truthy hero_photo); [|done]. by destruct (if_truthy _). }
  rewrite collect_thumbnails_empty, render_chapters_empty. simpl.
  rewrite !concat_no_photos.
  split_and!; try done.
  - apply list_elem_of_further, list_elem_of_here.
  - destruct (if_truthy hero_photo); [|done]. by destruct (if_truthy _).
  - intros ->. done.
Qed.

Lemma catalog_failure_degrades_witness :
  text_only (run_with None (Some (QueryRaises "database is locked")) [summer_chapter]).
Proof.
  apply (catalog_failure_degrades every_file "May 01, 2024" renders [] [summer_chapter]
           "Our family" "A memoir" "/uploads" None None "database is locked").
  reflexivity.
Defined.

(** C8, as stated: with an explicit hero photo the document produced after
    a failed catalog load is not text-only, its cover shows the hero photo. *)
Lemma failed_load_keeps_hero_image :
  cover_photo_path (run_with (Some "hero.jpg") (Some (QueryRaises "database is locked"))
                      [summer_chapter]) = Some "/uploads/hero.jpg"
  /\ ~ text_only (run_with (Some "hero.jpg") (Some (QueryRaises "database is locked"))
                    [summer_chapter]).
Proof.
  split; [vm_compute; reflexivity|].
  intros [Hcover _]. vm_compute in Hcover. discriminate Hcover.
Qed.

(** ** The table of contents *)

(** C10: the thumbnails are stored under the chapter title, so two chapters
    with the same title look up the same entry and their lines of the table
    of contents show the same thumbnail, or none. *)
Theorem toc_same_title_same_thumbnail
    (_get_safe_photo_path : string -> string -> option string)
    (today : string) (write_pdf : string -> string -> Outcome string)
    (self_family_names : list string) (chapters : list Chapter)
    (title subtitle upload_folder : string) (db_connection : option QueryOutcome)
    (hero_photo : option string) (family_names : option (list string))
    (first second : Chapter) :
  chapter_title first = chapter_title second ->
  let r := generate_biography_pdf _get_safe_photo_path today write_pdf self_family_names
             chapters title subtitle upload_folder db_connection hero_photo family_names in
  chapter_thumbnails r !! chapter_title first = chapter_thumbnails r !! chapter_title second
  /\ toc_entry_html (chapter_thumbnails r) first = toc_entry_html (chapter_thumbnails r) second
  /\ exists before after : string,
       html_content r = before +:+ toc_html (chapter_thumbnails r) chapters +:+ after.
Proof.
  intros Htitle r. split_and!.
  - by rewrite Htitle.
  - unfold toc_entry_html. by rewrite Htitle.
  - subst r. unfold generate_biography_pdf.
    destruct (load_photos db_connection) as [avail log1].
    destruct (select_cover _ _ _ avail ∅) as [cover used1].
    destruct (collect_thumbnails _ _ _ _ _ _ used1) as [[toc thumbs] used2].
    destruct (render_chapters _ _ _ _ _ used2) as [[[ch html] events] used3]. simpl.
    exists (html_head +:+ cover_html today (fst <$> cover) title subtitle), (html +:+ html_tail).
    by rewrite !append_assoc.
Qed.

(** Two chapters titled alike consume the beach photo and the garden photo;
    both lines of the table of contents show the garden photo. *)
Lemma toc_same_title_same_thumbnail_witness :
  let r := run_with None (Some (QueryRows [family_row; beach_row; garden_row]))
             [holidays_1; holidays_2] in
  toc_photos r = [[photo_of_row beach_row]; [photo_of_row garden_row]]
  /\ chapter_thumbnails r !! "Holidays 1990" = Some "/uploads/garden.jpg"
  /\ toc_entry_html (chapter_thumbnails r) holidays_1
     = toc_entry_html (chapter_thumbnails r) holidays_2.
Proof.
  intros r. split_and!.
  - vm_compute. reflexivity.
  - vm_compute. reflexivity.
  - apply (toc_same_title_same_thumbnail every_file "May 01, 2024" renders []
             [holidays_1; holidays_2] "Our family" "A memoir" "/uploads"
             (Some (QueryRows [family_row; beach_row; garden_row])) None None
             holidays_1 holidays_2).
    reflexivity.
Defined.

(** ** An explicitly given hero photo *)

(** Ties keep the catalog order, a higher score comes first, and the
    number of photos is bounded. *)
Example match_tie_break :
  let a := mkPhoto 1 "a.jpg" "" "" (Some 1992) "" in
  let b := mkPhoto 2 "b.jpg" "" "" (Some 1988) "" in
  let c := mkPhoto 3 "c.jpg" "" "" (Some 1990) "" in
  let d := mkPhoto 4 "d.jpg" "" "" (Some 1970) "" in
  (_match_photos_to_chapter [] ∅ "Summer 1990" "" [a; b; c; d] 3).1 = [c; a; b]
  /\ (_match_photos_to_chapter [] ∅ "Summer 1990" "" [a; b; c; d] 2).1 = [c; a]
  /\ (_match_photos_to_chapter [] {[ "c.jpg" ]} "Summer 1990" "" [a; b; c; d] 3).1 = [a; b].
Proof. vm_compute. done. Qed.

(** C1, at a failing input: the hero photo given for the cover is a photo
    of the catalog; it is not marked as used, the table of contents takes it
    as the thumbnail of the chapter, and the document shows the same file on
    the cover and in the table of contents. *)
Theorem hero_photo_shown_twice :
  let r := run_with (Some "beach.jpg") (Some (QueryRows [beach_row])) [summer_chapter] in
  cover_filename r = Some "beach.jpg"
  /\ toc_photos r = [[photo_of_row beach_row]]
  /\ cover_photo_path r = Some "/uploads/beach.jpg"
  /\ chapter_thumbnails r !! "Summer 1990" = Some "/uploads/beach.jpg"
  /\ shown_filenames r = ["beach.jpg"; "beach.jpg"]
  /\ contains ("<img src=" +:+ q "file:///uploads/beach.jpg" +:+ " alt=" +:+ q "Background")
       (html_content r) = true
  /\ contains ("<img src=" +:+ q "file:///uploads/beach.jpg" +:+ " class=" +:+ q "toc-thumbnail")
       (html_content r) = true.
Proof. intros r. split_and!; vm_compute; reflexivity. Qed.

(** C2, at a failing input: choosing the hero photo for the cover leaves
    the used set empty, and the next call of the matcher returns the photo
    that is on the cover. *)
Theorem hero_photo_matched_after_cover :
  let beach := photo_of_row beach_row in
  let cover := select_cover every_file "/uploads" (Some "beach.jpg") [beach] ∅ in
  cover.1 = Some ("/uploads/beach.jpg", "beach.jpg")
  /\ elements cover.2 = []
  /\ (_match_photos_to_chapter [] cover.2 (chapter_title summer_chapter)
        (narrative summer_chapter) [beach] 1).1 = [beach]
  /\ toc_photos (run_with (Some "beach.jpg") (Some (QueryRows [beach_row])) [summer_chapter])
     = [[beach]].
Proof. intros beach cover. split_and!; vm_compute; reflexivity. Qed.

(** Chosen automatically, the same photo is marked as used and no call of
    the matcher returns it. *)
Example auto_cover_not_matched :
  let r := run_with None (Some (QueryRows [beach_row])) [summer_chapter] in
  cover_filename r = Some "beach.jpg" /\ toc_photos r = [[]] /\ chapter_photos r = [[]]
  /\ shown_filenames r = ["beach.jpg"].
Proof. intros r. split_and!; vm_compute; reflexivity. Qed.

(** * Further properties of the generator *)

(** ** Substrings *)

Section Substrings.

Lemma length_l2s (l : list ascii) : String.length (l2s l) = length l.
Proof. induction l as [|c l IH]; simpl; [done | by rewrite IH]. Qed.

Lemma length_s2l (s : string) : length (s2l s) = String.length s.
Proof. induction s as [|c s IH]; simpl; [done | by rewrite IH]. Qed.

Lemma l2s_app (a b : list ascii) : l2s (a ++ b) = l2s a +:+ l2s b.
Proof.
  induction a as [|c a IH]; [done|].
  change (String c (l2s (a ++ b)) = String c (l2s a +:+ l2s b)). by rewrite IH.
Qed.

Lemma is_prefix_spec (p s : list ascii) :
  is_prefix p s = true <-> exists t, s = p ++ t.
Proof.
  revert s. induction p as [|a p IH]; intros s; simpl.
  - split; [intros _; by exists s | done].
  - destruct s as [|b s].
    + split; [done | intros [t Ht]; discriminate Ht].
    + destruct (ascii_dec a b) as [->|Hne].
      * rewrite IH. split; intros [t Ht]; exists t; [by rewrite Ht | by injection Ht].
      * split; [done | intros [t Ht]; injection Ht as -> _; done].
Qed.

Lemma is_infix_spec (p s : list ascii) :
  is_infix p s = true <-> exists a b, s = a ++ p ++ b.
Proof.
  induction s as [|c s IH]; simpl.
  - rewrite orb_false_r, is_prefix_spec. split.
    + intros [t Ht]. by exists [], t.
    + intros (a & b & Hab). destruct a; [by exists b | discriminate Hab].
  - rewrite orb_true_iff, is_prefix_spec, IH. split.
    + intros [[t Ht]|(a & b & Hab)]; [by exists [], t | exists (c :: a), b; by rewrite Hab].
    + intros (a & b & Hab). destruct a as [|x a].
      * left. by exists b.
      * right. simpl in Hab. injection Hab as -> ->. by exists a, b.
Qed.

Lemma contains_spec (needle hay : string) :
  contains needle hay = true <-> exists a b, hay = a +:+ needle +:+ b.
Proof.
  unfold contains. rewrite is_infix_spec. split.
  - intros (a & b & Hab). exists (l2s a), (l2s b).
    rewrite <- (l2s_s2l hay), Hab, !l2s_app. by rewrite l2s_s2l.
  - intros (a & b & ->). exists (s2l a), (s2l b). by rewrite !s2l_app.
Qed.

(** Stripping keeps a middle part of the text that neither starts nor ends
    with white space. *)
Lemma lstrip_head (l : list ascii) (c : ascii) : head (lstrip l) = Some c -> is_space c = false.
Proof.
  induction l as [|a l IH]; simpl; [done|].
  destruct (is_space a) eqn:Ha; [exact IH | simpl; by intros [= <-]].
Qed.

Lemma strip_chars_middle (l : list ascii) : exists a b, l = a ++ strip_chars l ++ b.
Proof.
  unfold strip_chars.
  destruct (lstrip_suffix l) as [a Ha].
  destruct (lstrip_suffix (rev (lstrip l))) as [b Hb].
  exists a, (rev b). rewrite <- rev_app_distr, <- Hb, rev_involutive. exact Ha.
Qed.

Lemma strip_chars_last (l : list ascii) (c : ascii) :
  last (strip_chars l) = Some c -> is_space c = false.
Proof.
  unfold strip_chars. destruct (lstrip (rev (lstrip l))) as [|a t] eqn:E; simpl; [done|].
  rewrite last_snoc. intros [= <-]. apply (lstrip_head (rev (lstrip l))). by rewrite E.
Qed.

Lemma strip_chars_head (l : list ascii) (c : ascii) :
  head (strip_chars l) = Some c -> is_space c = false.
Proof.
  unfold strip_chars. intros Hc.
  destruct (lstrip_suffix (rev (lstrip l))) as [b Hb].
  apply (f_equal (@rev ascii)) in Hb. rewrite rev_involutive, rev_app_distr in Hb.
  apply (lstrip_head l). rewrite Hb.
  destruct (rev (lstrip (rev (lstrip l)))); [done | exact Hc].
Qed.

(** The piece under construction is the beginning of the text. *)
Lemma split_terminators_first (s : list ascii) (first : list ascii) (rest : list (list ascii)) :
  split_terminators false s = first :: rest -> exists t, s = first ++ t.
Proof.
  revert first rest. induction s as [|c s IH]; intros first rest; simpl.
  - intros [= <- _]. by exists [].
  - destruct (is_terminator c).
    + intros [= <- _]. by exists (c :: s).
    + destruct (split_terminators false s) as [|first' rest'] eqn:Hs.
      * intros [= <- _]. by exists s.
      * intros [= <- _]. destruct (IH _ _ eq_refl) as [t ->]. by exists t.
Qed.

(** Every piece of the sentence split is a part of the text. *)
Lemma split_terminators_part (s : list ascii) (prev_term : bool) (piece : list ascii) :
  piece ∈ split_terminators prev_term s -> exists a b, s = a ++ piece ++ b.
Proof.
  revert prev_term piece. induction s as [|c s IH]; intros prev_term piece; simpl.
  - intros ->%list_elem_of_singleton. by exists [], [].
  - destruct (is_terminator c).
    + assert (piece ∈ split_terminators true s -> exists a b, c :: s = a ++ piece ++ b) as Hrest.
      { intros (a & b & ->)%IH. by exists (c :: a), b. }
      destruct prev_term; [exact Hrest|].
      intros [->|Hin]%elem_of_cons; [by exists [], (c :: s) | by apply Hrest].
    + destruct (split_terminators false s) as [|first rest] eqn:Hs.
      * intros ->%list_elem_of_singleton. by exists [], s.
      * intros [->|Hin]%elem_of_cons.
        -- destruct (split_terminators_first _ _ _ Hs) as [t ->]. by exists [], t.
        -- destruct (IH false piece) as (a & b & ->).
           { rewrite Hs. by apply list_elem_of_further. }
           by exists (c :: a), b.
Qed.

End Substrings.

(** ** More on pull quotes *)

Section PullQuoteOrigin.

Lemma first_compelling_origin (max_length : Z) (sentences : list string) (quote : string) :
  first_compelling max_length sentences = Some quote ->
  exists sentence, sentence ∈ sentences /\ quote = strip sentence +:+ "."
                   /\ 30 < len (strip sentence) < max_length.
Proof.
  induction sentences as [|sentence rest IH]; simpl; [done|].
  destruct (30 <? len (strip sentence)) eqn:H1, (len (strip sentence) <? max_length) eqn:H2,
    (is_compelling (strip sentence)); simpl;
    try (intros H; destruct (IH H) as (x & Hx & Hq & Hl); exists x;
         split; [by apply list_elem_of_further | done]).
  intros [= <-]. exists sentence. apply Z.ltb_lt in H1, H2.
  split; [apply list_elem_of_here | done].
Qed.

Lemma first_long_enough_origin (max_length : Z) (sentences : list string) (quote : string) :
  first_long_enough max_length sentences = Some quote ->
  exists sentence, sentence ∈ sentences /\ quote = strip sentence +:+ "."
                   /\ 40 < len (strip sentence) < max_length.
Proof.
  induction sentences as [|sentence rest IH]; simpl; [done|].
  destruct (40 <? len (strip sentence)) eqn:H1, (len (strip sentence) <? max_length) eqn:H2;
    simpl;
    try (intros H; destruct (IH H) as (x & Hx & Hq & Hl); exists x;
         split; [by apply list_elem_of_further | done]).
  intros [= <-]. exists sentence. apply Z.ltb_lt in H1, H2.
  split; [apply list_elem_of_here | done].
Qed.

(** Where a pull quote comes from: a piece of the sentence split, stripped,
    of more than 30 and less than [max_length] characters. *)
Lemma pull_quote_origin (text : string) (max_length : Z) (quote : string) :
  _extract_pull_quote text max_length = Some quote ->
  exists piece : list ascii,
    piece ∈ split_terminators false (s2l text)
    /\ s2l quote = strip_chars piece ++ ["."%char]
    /\ 30 < Z.of_nat (length (strip_chars piece)) < max_length.
Proof.
  unfold _extract_pull_quote. intros H.
  assert (exists sentence, sentence ∈ re_split_sentences text
                           /\ quote = strip sentence +:+ "."
                           /\ 30 < len (strip sentence) < max_length)
    as (sentence & Hin & -> & Hlen).
  { destruct (first_compelling max_length (re_split_sentences text)) eqn:E.
    - injection H as <-. by apply first_compelling_origin.
    - apply first_long_enough_origin in H as (x & Hx & Hq & Hl).
      exists x. split_and!; [done | done | lia | lia]. }
  unfold re_split_sentences in Hin.
  apply list_elem_of_fmap in Hin as (piece & -> & Hpiece).
  exists piece. unfold strip, len in *. rewrite s2l_l2s, length_l2s in Hlen.
  split_and!; [done | by rewrite s2l_app, !s2l_l2s | lia | lia].
Qed.

End PullQuoteOrigin.

(** X1: a returned pull quote, period included, has at least 32 and at
    most [max_length] characters. *)
Theorem pull_quote_length (text : string) (max_length : Z) (quote : string) :
  _extract_pull_quote text max_length = Some quote ->
  32 <= len quote <= max_length.
Proof.
  intros (piece & _ & Hq & Hlen)%pull_quote_origin.
  unfold len. rewrite <- length_s2l, Hq, length_app. simpl. lia.
Qed.

Lemma pull_quote_length_witness : 32 <= len "I will always remember that summer." <= 150.
Proof. apply (pull_quote_length summer_text 150). reflexivity. Defined.

(** X2: a returned pull quote is a verbatim excerpt of the text: the quote
    without its final period occurs in the text, and it neither starts nor
    ends with white space. *)
Theorem pull_quote_excerpt (text : string) (max_length : Z) (quote : string) :
  _extract_pull_quote text max_length = Some quote ->
  exists excerpt : string,
    quote = excerpt +:+ "."
    /\ contains excerpt text = true
    /\ (forall c, head (s2l excerpt) = Some c -> is_space c = false)
    /\ (forall c, last (s2l excerpt) = Some c -> is_space c = false).
Proof.
  intros (piece & Hpiece & Hq & _)%pull_quote_origin.
  exists (l2s (strip_chars piece)). rewrite s2l_l2s. split_and!.
  - rewrite <- (l2s_s2l quote), Hq, l2s_app. done.
  - apply contains_spec.
    apply split_terminators_part in Hpiece as (a & b & Htext).
    destruct (strip_chars_middle piece) as (a' & b' & Hmid).
    exists (l2s (a ++ a')), (l2s (b' ++ b)).
    rewrite <- (l2s_s2l text), Htext, Hmid at 1.
    rewrite <- !l2s_app. f_equal. by rewrite <- !app_assoc.
  - apply strip_chars_head.
  - apply strip_chars_last.
Qed.

Lemma pull_quote_excerpt_witness :
  exists excerpt : string,
    "I will always remember that summer." = excerpt +:+ "."
    /\ contains excerpt summer_text = true
    /\ (forall c, head (s2l excerpt) = Some c -> is_space c = false)
    /\ (forall c, last (s2l excerpt) = Some c -> is_space c = false).
Proof. apply (pull_quote_excerpt summer_text 150). reflexivity. Defined.

(** X3: a text of 30 characters or less has no pull quote, and with a
    [max_length] of 31 or less no text has one. *)
Theorem pull_quote_none_when_short (text : string) (max_length : Z) :
  len text <= 30 \/ max_length <= 31 -> _extract_pull_quote text max_length = None.
Proof.
  intros Hshort. destruct (_extract_pull_quote text max_length) as [quote|] eqn:E; [|done].
  apply pull_quote_origin in E as (piece & Hpiece & _ & Hlen).
  destruct Hshort as [Htext|Hmax]; [|lia].
  apply split_terminators_part in Hpiece as (a & b & Htext').
  destruct (strip_chars_middle piece) as (a' & b' & Hmid).
  unfold len in Htext. rewrite <- length_s2l, Htext', Hmid, !length_app in Htext. lia.
Qed.

Lemma pull_quote_none_when_short_witness :
  _extract_pull_quote "We laughed. It was fine." 150 = None.
Proof. apply pull_quote_none_when_short. left. vm_compute. discriminate. Defined.

(** ** Keywords, years and the range of the score *)

Section ScoreRange.

Lemma findall_words_shape (s cur : list ascii) :
  Forall (fun c => is_word c = true) cur ->
  Forall (fun w => (4 <= length w)%nat /\ Forall (fun c => is_word c = true) w)
         (findall_words cur s).
Proof.
  assert (forall cur, Forall (fun c => is_word c = true) cur ->
            Forall (fun w => (4 <= length w)%nat /\ Forall (fun c => is_word c = true) w)
                   (flush_word cur)) as Hflush.
  { intros l Hl. unfold flush_word. destruct (Nat.leb_spec 4 (length l)); [|constructor].
    constructor; [|constructor]. split; [by rewrite length_rev | by apply Forall_rev]. }
  revert cur. induction s as [|c s IH]; intros cur Hcur; simpl; [by apply Hflush|].
  destruct (is_word c) eqn:Hc.
  - apply IH. by constructor.
  - apply Forall_app. split; [by apply Hflush | apply IH; constructor].
Qed.

Lemma findall_words_count (s cur : list ascii) :
  (5 * length (findall_words cur s) <= length cur + length s + 1)%nat.
Proof.
  revert cur. induction s as [|c s IH]; intros cur; simpl.
  - unfold flush_word. destruct (Nat.leb_spec 4 (length cur)); simpl; lia.
  - destruct (is_word c).
    + specialize (IH (c :: cur)). simpl in IH. lia.
    + rewrite length_app. specialize (IH []). simpl in IH.
      unfold flush_word. destruct (Nat.leb_spec 4 (length cur)); simpl; lia.
Qed.

Lemma size_list_to_set_le (l : list string) : (size (list_to_set l : gset string) <= length l)%nat.
Proof.
  induction l as [|x l IH]; [done|].
  rewrite list_to_set_cons, size_union_alt, size_singleton. simpl.
  pose proof (subseteq_size (list_to_set l ∖ {[x]}) (list_to_set l : gset string)) as Hle.
  specialize (Hle (subseteq_difference_l _ _ _ (reflexivity _))). lia.
Qed.

Lemma chapter_keywords_count (chapter_combined : string) :
  (size (chapter_keywords chapter_combined) <= 100)%nat.
Proof.
  unfold chapter_keywords, re_findall_words4, prefix_of.
  etrans; [apply size_list_to_set_le|]. rewrite length_map, s2l_l2s.
  pose proof (findall_words_count (take 500 (s2l chapter_combined)) []) as H.
  rewrite length_take in H. change (length (@nil ascii)) with 0%nat in H. lia.
Qed.

Lemma is_digit_val (c : ascii) : is_digit c = true -> 0 <= digit_val c <= 9.
Proof.
  unfold is_digit, in_range, digit_val. intros [H1 H2]%andb_true_iff.
  apply N.leb_le in H1, H2. lia.
Qed.

End ScoreRange.

(** X4: every keyword of a chapter has at least four characters, all of
    them word characters, and a chapter has at most 100 distinct keywords. *)
Theorem keywords_shape (chapter_title chapter_text : string) :
  (size (chapter_keywords (chapter_combined_of chapter_title chapter_text)) <= 100)%nat
  /\ forall keyword : string,
       keyword ∈ chapter_keywords (chapter_combined_of chapter_title chapter_text) ->
       (4 <= String.length keyword)%nat
       /\ Forall (fun c => is_word c = true) (s2l keyword).
Proof.
  split; [apply chapter_keywords_count|].
  intros keyword Hin. unfold chapter_keywords, re_findall_words4 in Hin.
  apply elem_of_list_to_set, list_elem_of_fmap in Hin as (w & -> & Hw).
  pose proof (findall_words_shape
                (s2l (prefix_of 500 (chapter_combined_of chapter_title chapter_text))) []
                (Forall_nil_2 _)) as Hall.
  rewrite Forall_forall in Hall. destruct (Hall w Hw) as [Hlen Hword].
  by rewrite length_l2s, s2l_l2s.
Qed.

(** X5: the score of a photo is never negative and never more than 600
    plus 30 per configured family name. *)
Theorem photo_score_range (family_names : list string)
    (chapter_title chapter_text : string) (photo : Photo) :
  0 <= photo_score family_names chapter_title chapter_text photo
    <= 600 + 30 * Z.of_nat (length family_names).
Proof.
  split; [apply photo_score_nonneg|].
  rewrite photo_score_sum. unfold name_term, keyword_term.
  assert (year_term (chapter_year_of chapter_title) (year photo) <= 100) as Hyear.
  { unfold year_term. repeat case_match; lia. }
  pose proof (chapter_keywords_count (chapter_combined_of chapter_title chapter_text)) as Hkw.
  pose proof (subseteq_size
                (filter (fun keyword => contains keyword (photo_text_of photo) = true)
                   (chapter_keywords (chapter_combined_of chapter_title chapter_text)))
                (chapter_keywords (chapter_combined_of chapter_title chapter_text))) as Hsub.
  specialize (Hsub ltac:(by intros keyword [_ ?]%elem_of_filter)).
  pose proof (List.filter_length_le
                (fun name => contains (lower name) (photo_text_of photo)
                             && contains (lower name)
                                  (chapter_combined_of chapter_title chapter_text))
                family_names) as Hnames.
  lia.
Qed.

Lemma search_year_cons (a : ascii) (s : list ascii) :
  search_year (a :: s)
  = match s with
    | b :: c :: d :: _ =>
        if is_digit a && is_digit b && is_digit c && is_digit d
        then Some (1000 * digit_val a + 100 * digit_val b + 10 * digit_val c + digit_val d)
        else search_year s
    | _ => search_year s
    end.
Proof. destruct s as [|b [|c [|d s]]]; reflexivity. Qed.

(** X6: the year read from a chapter title lies between 0 and 9999. *)
Theorem chapter_year_range (chapter_title : string) (y : Z) :
  chapter_year_of chapter_title = Some y -> 0 <= y <= 9999.
Proof.
  unfold chapter_year_of. generalize (s2l chapter_title). intros s.
  induction s as [|a s IH]; [done|].
  rewrite search_year_cons. destruct s as [|b [|c [|d t]]]; try exact IH.
  destruct (is_digit a) eqn:Ha, (is_digit b) eqn:Hb, (is_digit c) eqn:Hc,
    (is_digit d) eqn:Hd; try exact IH.
  intros [= <-]. apply is_digit_val in Ha, Hb, Hc, Hd. lia.
Qed.

Lemma chapter_year_range_witness : 0 <= 1950 <= 9999.
Proof. apply (chapter_year_range "Early Years (1950-1960)"). reflexivity. Defined.

(** X7: of two photos with the same title, description and people, the one
    whose year is nearer to the chapter's year never scores lower. *)
Theorem nearer_year_scores_higher (family_names : list string)
    (chapter_title chapter_text : string) (c : Z) (near far : Photo) (n f : Z) :
  chapter_year_of chapter_title = Some c ->
  year near = Some n -> year far = Some f -> n <> 0 ->
  Z.abs (n - c) <= Z.abs (f - c) ->
  photo_text_of near = photo_text_of far ->
  photo_score family_names chapter_title chapter_text far
  <= photo_score family_names chapter_title chapter_text near.
Proof.
  intros Hc Hn Hf Hn0 Hdist Htext. rewrite !photo_score_sum, Htext, Hc, Hn, Hf.
  apply Z.add_le_mono_r, Z.add_le_mono_r. unfold year_term.
  destruct (Z.eqb_spec n 0); [done|].
  destruct (Z.eqb_spec c 0), (Z.eqb_spec f 0); simpl; try lia; try (repeat case_match; lia).
Qed.

Lemma nearer_year_scores_higher_witness :
  photo_score [] "Chapter (1990s)" "" (mkPhoto 2 "b.jpg" "" "" (Some 1998) "")
  <= photo_score [] "Chapter (1990s)" "" (mkPhoto 1 "a.jpg" "" "" (Some 1990) "").
Proof.
  apply (nearer_year_scores_higher [] "Chapter (1990s)" "" 1990
           (mkPhoto 1 "a.jpg" "" "" (Some 1990) "") (mkPhoto 2 "b.jpg" "" "" (Some 1998) "")
           1990 1998); vm_compute; (reflexivity || discriminate).
Defined.

(** ** Edge cases of one matcher call *)

Section MatcherEdges.

Variable family_names : list string.
Variable used_images : gset string.
Variables chapter_title chapter_text : string.
Variable available_photos : list Photo.

Local Abbreviation score := (photo_score family_names chapter_title chapter_text).
Local Abbreviation cands :=
  (candidates family_names used_images chapter_title chapter_text available_photos).
Local Abbreviation call :=
  (_match_photos_to_chapter family_names used_images chapter_title chapter_text available_photos).

Lemma ranked_length (photos : list Photo) : length (ranked score photos) = length photos.
Proof. by rewrite (ranked_perm score photos). Qed.

Lemma candidates_none :
  (forall photo, photo ∈ available_photos -> filename photo ∈ used_images) -> cands = [].
Proof.
  intros Hused. unfold candidates.
  induction available_photos as [|photo rest IH]; [done|].
  rewrite filter_cons_False.
  - apply IH. intros p Hp. apply Hused. by apply list_elem_of_further.
  - intros [Hnot _]. apply Hnot, Hused, list_elem_of_here.
Qed.

Lemma sorted_app_elem {A} (R : A -> A -> Prop) (l1 l2 : list A) (x1 x2 : A) :
  StronglySorted R (l1 ++ l2) -> x1 ∈ l1 -> x2 ∈ l2 -> R x1 x2.
Proof.
  induction l1 as [|x l1 IH]; simpl; intros Hsorted H1 H2.
  - by apply elem_of_nil in H1.
  - inversion Hsorted as [|? ? Htl Hhd]; subst.
    apply elem_of_cons in H1 as [->|H1]; [|by apply IH].
    rewrite Forall_forall in Hhd. apply Hhd, elem_of_app. by right.
Qed.

End MatcherEdges.

(** X8: when every photo of the catalog is already used, or when
    [max_photos] is 0, a call returns no photo and leaves the used set as
    it was. *)
Theorem match_nothing_left (family_names : list string) (used_images : gset string)
    (chapter_title chapter_text : string) (available_photos : list Photo) (max_photos : Z) :
  (forall photo, photo ∈ available_photos -> filename photo ∈ used_images) \/ max_photos = 0 ->
  _match_photos_to_chapter family_names used_images chapter_title chapter_text
    available_photos max_photos = ([], used_images).
Proof.
  intros H. rewrite match_call_eq.
  assert (slice_to max_photos
            (ranked (photo_score family_names chapter_title chapter_text)
               (candidates family_names used_images chapter_title chapter_text
                  available_photos)) = []) as ->.
  { destruct H as [Hused| ->].
    - rewrite candidates_none by done. unfold slice_to, ranked. simpl.
      by destruct (0 <=? max_photos); rewrite ?take_nil.
    - reflexivity. }
  simpl. by rewrite union_empty_r_L.
Qed.

Lemma match_nothing_left_witness :
  _match_photos_to_chapter [] {[ "beach.jpg" ]} "Summer 1990" "" [beach_photo] 3
  = ([], {[ "beach.jpg" ]}).
Proof.
  apply match_nothing_left. left. intros photo ->%list_elem_of_singleton.
  by apply elem_of_singleton.
Defined.

(** X9: a call returns as many photos as [max_photos] allows: the smaller
    of [max_photos] and the number of candidates. *)
Theorem match_fills_slots (family_names : list string) (used_images : gset string)
    (chapter_title chapter_text : string) (available_photos : list Photo) (max_photos : nat) :
  length (_match_photos_to_chapter family_names used_images chapter_title chapter_text
            available_photos (Z.of_nat max_photos)).1
  = min max_photos
      (length (candidates family_names used_images chapter_title chapter_text
                 available_photos)).
Proof.
  rewrite match_call_eq. simpl. by rewrite slice_to_count, length_take, ranked_length.
Qed.

(** X10: the choice is greedy in the score: no candidate that is left out
    scores higher than a photo that is returned. *)
Theorem match_prefers_higher_score (family_names : list string) (used_images : gset string)
    (chapter_title chapter_text : string) (available_photos : list Photo) (max_photos : nat)
    (chosen left_out : Photo) :
  let selected := (_match_photos_to_chapter family_names used_images chapter_title
                     chapter_text available_photos (Z.of_nat max_photos)).1 in
  chosen ∈ selected ->
  left_out ∈ candidates family_names used_images chapter_title chapter_text available_photos ->
  left_out ∉ selected ->
  photo_score family_names chapter_title chapter_text left_out
  <= photo_score family_names chapter_title chapter_text chosen.
Proof.
  intros selected. subst selected. rewrite match_call_eq. simpl. rewrite slice_to_count.
  set (score := photo_score family_names chapter_title chapter_text).
  set (order := ranked score _). intros Hchosen Hcand Hout.
  assert (left_out ∈ drop max_photos order) as Hdrop.
  { rewrite <- (ranked_perm score), <- (take_drop max_photos) in Hcand.
    apply elem_of_app in Hcand as [?|?]; done. }
  pose proof (ranked_sorted score
                (candidates family_names used_images chapter_title chapter_text
                   available_photos)) as Hsorted.
  fold order in Hsorted. rewrite <- (take_drop max_photos order) in Hsorted.
  by apply (sorted_app_elem _ _ _ chosen left_out) in Hsorted.
Qed.

Lemma match_prefers_higher_score_witness :
  photo_score [] "Summer 1990" "" photo_of_1988 <= photo_score [] "Summer 1990" "" photo_of_1990.
Proof.
  apply (match_prefers_higher_score [] ∅ "Summer 1990" "" [photo_of_1988; photo_of_1990] 1).
  - vm_compute. apply list_elem_of_here.
  - vm_compute. apply list_elem_of_here.
  - vm_compute. intros H. apply list_elem_of_singleton in H. discriminate H.
Defined.

(** X11: a negative [max_photos] does not mean "none": the slice drops
    that many photos from the end of the ranking and returns the others. *)
Theorem match_negative_bound (family_names : list string) (used_images : gset string)
    (chapter_title chapter_text : string) (available_photos : list Photo) (max_photos : Z) :
  max_photos < 0 ->
  length (_match_photos_to_chapter family_names used_images chapter_title chapter_text
            available_photos max_photos).1
  = (length (candidates family_names used_images chapter_title chapter_text available_photos)
     - Z.to_nat (- max_photos))%nat.
Proof.
  intros Hneg. rewrite match_call_eq. simpl. unfold slice_to.
  destruct (Z.leb_spec 0 max_photos); [lia|].
  rewrite length_take, ranked_length. lia.
Qed.

Lemma match_negative_bound_witness :
  length (_match_photos_to_chapter [] ∅ "Summer 1990" "" [photo_of_1988; photo_of_1990] (-1)).1
  = (length (candidates [] ∅ "Summer 1990" "" [photo_of_1988; photo_of_1990])
     - Z.to_nat (- (-1)))%nat.
Proof. apply match_negative_bound. lia. Defined.


(** ** The phases of a run *)

Section RunPhases.

Variable _get_safe_photo_path : string -> string -> option string.
Variable today : string.
Variable write_pdf : string -> string -> Outcome string.
Variable self_family_names : list string.
Variable chapters : list Chapter.
Variables title subtitle upload_folder : string.
Variable db_connection : option QueryOutcome.
Variable hero_photo : option string.
Variable family_names : option (list string).

Local Abbreviation run :=
  (generate_biography_pdf _get_safe_photo_path today write_pdf self_family_names chapters
     title subtitle upload_folder db_connection hero_photo family_names).
Local Abbreviation names := (effective_names self_family_names family_names).
Local Abbreviation catalog := (load_photos db_connection).1.
Local Abbreviation cover_step :=
  (select_cover _get_safe_photo_path upload_folder hero_photo catalog ∅).
Local Abbreviation toc_step :=
  (collect_thumbnails _get_safe_photo_path names upload_folder catalog chapters ∅ cover_step.2).
Local Abbreviation chapter_step :=
  (render_chapters _get_safe_photo_path names upload_folder catalog chapters toc_step.2).

(** The fields of a run in terms of its three phases. *)
Lemma run_phases :
  cover_filename run = snd <$> cover_step.1
  /\ cover_photo_path run = fst <$> cover_step.1
  /\ chapter_thumbnails run = toc_step.1.2
  /\ toc_photos run = toc_step.1.1
  /\ chapter_photos run = chapter_step.1.1.1
  /\ used_images run = chapter_step.2
  /\ html_content run
     = html_head +:+ cover_html today (fst <$> cover_step.1) title subtitle
       +:+ toc_html toc_step.1.2 chapters +:+ chapter_step.1.1.2 +:+ html_tail
  /\ result run = write_pdf (html_content run) upload_folder.
Proof.
  unfold generate_biography_pdf, effective_names.
  destruct (load_photos db_connection) as [avail log1]. simpl.
  destruct (select_cover _ _ _ avail ∅) as [cover used1]. simpl.
  destruct (collect_thumbnails _ _ _ _ _ _ used1) as [[toc thumbs] used2]. simpl.
  destruct (render_chapters _ _ _ _ _ used2) as [[[ch html] events] used3]. simpl.
  done.
Qed.

End RunPhases.

Section Loops.

Variable _get_safe_photo_path : string -> string -> option string.
Variable family_names : list string.
Variable upload_folder : string.
Variable available_photos : list Photo.




(** The markup of the chapters is the markup of each chapter with its own
    photos, in the order of the chapters. *)
Lemma render_chapters_html (chapters : list Chapter) (used_images : gset string) :
  (render_chapters _get_safe_photo_path family_names upload_folder available_photos
     chapters used_images).1.1.2
  = concat_str
      (zip_with (fun chapter photos =>
                   _create_chapter_html family_names _get_safe_photo_path chapter photos
                     upload_folder)
         chapters
         (render_chapters _get_safe_photo_path family_names upload_folder available_photos
            chapters used_images).1.1.1).
Proof.
  revert used_images.
  induction chapters as [|chapter rest IH]; intros used_images; simpl; [done|].
  destruct (_match_photos_to_chapter _ _ _ _ _ 3) as [selected used1].
  specialize (IH used1).
  destruct (render_chapters _ _ _ _ rest used1) as [[[calls html] events] used2].
  simpl in *. by rewrite IH.
Qed.

(** Every thumbnail stored by the loop belongs to one of the chapters and
    is the resolved file of a photo of the catalog. *)
Lemma collect_thumbnails_lookup (chapters : list Chapter) (thumbnails : gmap string string)
    (used_images : gset string) (key path : string) :
  (collect_thumbnails _get_safe_photo_path family_names upload_folder available_photos
     chapters thumbnails used_images).1.2 !! key = Some path ->
  thumbnails !! key = Some path
  \/ exists chapter photo,
       chapter ∈ chapters /\ chapter_title chapter = key /\ photo ∈ available_photos
       /\ if_truthy (_get_safe_photo_path upload_folder (filename photo)) = Some path.
Proof.
  revert thumbnails used_images.
  induction chapters as [|chapter rest IH]; intros thumbnails used_images; simpl; [by left|].
  pose proof (match_selected_candidates family_names used_images (chapter_title chapter)
                (narrative chapter) available_photos 1) as Hsel.
  destruct (_match_photos_to_chapter _ _ _ _ _ 1) as [selected used1]. simpl in Hsel.
  match goal with
  | |- context [collect_thumbnails _ _ _ _ rest ?t used1] =>
      specialize (IH t used1); set (thumbs1 := t) in *
  end.
  destruct (collect_thumbnails _ _ _ _ rest thumbs1 used1) as [[calls thumbs] used2].
  simpl in *. intros Hlookup.
  destruct (IH Hlookup) as [Hfirst|(ch & photo & Hch & Hrest)].
  - subst thumbs1. destruct selected as [|photo selected']; [by left|].
    destruct (if_truthy (_get_safe_photo_path upload_folder (filename photo))) as [p|] eqn:Hp;
      [|by left].
    destruct (decide (chapter_title chapter = key)) as [Hkey|Hkey].
    + rewrite Hkey, lookup_insert_eq in Hfirst. injection Hfirst as ->.
      right. exists chapter, photo. split_and!; [apply list_elem_of_here | done | | done].
      apply Hsel, list_elem_of_here.
    + rewrite lookup_insert_ne in Hfirst by done. by left.
  - right. exists ch, photo. split; [by apply list_elem_of_further | done].
Qed.

End Loops.

(** ** Properties of whole runs *)

Section CoverChoice.

Variable _get_safe_photo_path : string -> string -> option string.
Variable upload_folder : string.

Lemma auto_select_cover_some (photos : list Photo) (path name : string) :
  auto_select_cover _get_safe_photo_path upload_folder photos = Some (path, name) ->
  exists photo, photo ∈ photos /\ filename photo = name /\ tagged_for_cover photo = true
                /\ if_truthy (_get_safe_photo_path upload_folder (filename photo)) = Some path.
Proof.
  induction photos as [|photo rest IH]; simpl; [done|].
  fold (tagged_for_cover photo).
  assert (auto_select_cover _get_safe_photo_path upload_folder rest = Some (path, name) ->
          exists p, p ∈ photo :: rest /\ filename p = name /\ tagged_for_cover p = true
                    /\ if_truthy (_get_safe_photo_path upload_folder (filename p)) = Some path)
    as Hrest.
  { intros (p & Hp & H)%IH. exists p. split; [by apply list_elem_of_further | done]. }
  destruct (tagged_for_cover photo) eqn:Htag; [|exact Hrest].
  destruct (if_truthy (_get_safe_photo_path upload_folder (filename photo))) as [p|] eqn:Hp;
    [|exact Hrest].
  intros [= -> <-]. exists photo. split; [apply list_elem_of_here | done].
Qed.

Lemma auto_select_cover_none (photos : list Photo) (photo : Photo) :
  auto_select_cover _get_safe_photo_path upload_folder photos = None ->
  photo ∈ photos -> tagged_for_cover photo = true ->
  if_truthy (_get_safe_photo_path upload_folder (filename photo)) = None.
Proof.
  induction photos as [|first rest IH]; simpl; [by intros _ ?%elem_of_nil|].
  fold (tagged_for_cover first). intros Hnone [->|Hin]%elem_of_cons Htag.
  - rewrite Htag in Hnone. by destruct (if_truthy _).
  - apply IH; [|done..]. destruct (tagged_for_cover first); [|done].
    by destruct (if_truthy (_get_safe_photo_path upload_folder (filename first))).
Qed.

Lemma auto_cover_used_set (hero_photo : option string) (available_photos : list Photo) :
  if_truthy hero_photo = None ->
  (select_cover _get_safe_photo_path upload_folder hero_photo available_photos ∅).2
  = list_to_set
      (option_list
         (snd <$> (select_cover _get_safe_photo_path upload_folder hero_photo
                     available_photos ∅).1)).
Proof.
  unfold select_cover. intros ->. destruct available_photos as [|first rest]; [done|].
  destruct (auto_select_cover _ _ _) as [[path name]|]; simpl.
  - by rewrite union_empty_l_L, union_empty_r_L.
  - destruct (if_truthy _); simpl; [by rewrite union_empty_l_L, union_empty_r_L | done].
Qed.

End CoverChoice.


(** X13: with distinct filenames in the catalog, no photo is returned twice
    by the matcher calls of a run, thumbnail calls and chapter calls taken
    together, whatever the cover. *)
Theorem run_matches_distinct (_get_safe_photo_path : string -> string -> option string)
    (today : string) (write_pdf : string -> string -> Outcome string)
    (self_family_names : list string) (chapters : list Chapter)
    (title subtitle upload_folder : string) (db_connection : option QueryOutcome)
    (hero_photo : option string) (family_names : option (list string)) :
  NoDup (filename <$> (load_photos db_connection).1) ->
  let r := generate_biography_pdf _get_safe_photo_path today write_pdf self_family_names
             chapters title subtitle upload_folder db_connection hero_photo family_names in
  NoDup (filename <$> concat (toc_photos r ++ chapter_photos r)).
Proof.
  intros Hnd r. subst r.
  destruct (run_calls _get_safe_photo_path today write_pdf self_family_names chapters title
              subtitle upload_folder db_connection hero_photo family_names)
    as (names & Hcalls & _).
  by eapply calls_NoDup.
Qed.

Lemma run_matches_distinct_witness :
  NoDup (filename <$> concat
           (toc_photos (run_with (Some "beach.jpg")
                          (Some (QueryRows [beach_row; garden_row])) [holidays_1; holidays_2])
            ++ chapter_photos (run_with (Some "beach.jpg")
                                 (Some (QueryRows [beach_row; garden_row]))
                                 [holidays_1; holidays_2]))).
Proof.
  apply (run_matches_distinct every_file "May 01, 2024" renders [] [holidays_1; holidays_2]
           "Our family" "A memoir" "/uploads" (Some (QueryRows [beach_row; garden_row]))
           (Some "beach.jpg") None).
  vm_compute. repeat constructor; intros H; inversion H as [|? ? ? H']; inversion H'.
Defined.

(** X14: without an explicit hero photo and with distinct filenames in the
    catalog, the used set at the end of a run is the set of the filenames
    the run selected: the cover it chose by itself, if any, and the photos
    the matcher returned for the thumbnails and for the chapters, each of
    them once.  The number of used images that the run reports is
    therefore the number of photos selected, whether or not their files
    are found when the markup is written. *)
Theorem run_used_count (_get_safe_photo_path : string -> string -> option string)
    (today : string) (write_pdf : string -> string -> Outcome string)
    (self_family_names : list string) (chapters : list Chapter)
    (title subtitle upload_folder : string) (db_connection : option QueryOutcome)
    (hero_photo : option string) (family_names : option (list string)) :
  if_truthy hero_photo = None ->
  NoDup (filename <$> (load_photos db_connection).1) ->
  let r := generate_biography_pdf _get_safe_photo_path today write_pdf self_family_names
             chapters title subtitle upload_folder db_connection hero_photo family_names in
  let selected :=
    option_list (cover_filename r)
    ++ (filename <$> concat (toc_photos r ++ chapter_photos r)) in
  used_images r = list_to_set selected
  /\ NoDup selected
  /\ size (used_images r)
     = (length (option_list (cover_filename r))
        + length (concat (toc_photos r)) + length (concat (chapter_photos r)))%nat.
Proof.
  intros Hhero Hnd r selected.
  destruct (run_calls _get_safe_photo_path today write_pdf self_family_names chapters title
              subtitle upload_folder db_connection hero_photo family_names)
    as (names & Hcalls & Hcover).
  fold r in Hcalls, Hcover.
  assert (used_images r = list_to_set selected) as Hused.
  { rewrite (calls_used _ _ _ _ _ Hcalls), auto_cover_used_set by done.
    subst selected. rewrite Hcover. by rewrite list_to_set_app_L. }
  assert (NoDup selected) as Hselected.
  { subst selected. apply NoDup_app. split_and!.
    - destruct (cover_filename r); simpl; [apply NoDup_singleton | constructor].
    - intros name Hname Hin.
      destruct (cover_filename r) as [chosen|] eqn:Hchosen; simpl in Hname;
        [|by apply elem_of_nil in Hname].
      apply list_elem_of_singleton in Hname as ->.
      apply list_elem_of_fmap in Hin as (photo & -> & Hphoto).
      destruct (calls_fresh _ _ _ _ _ _ Hcalls Hphoto) as [Hnot _]. apply Hnot.
      rewrite auto_cover_used_set by done. rewrite <- Hcover.
      by apply elem_of_list_to_set, list_elem_of_singleton.
    - by eapply calls_NoDup. }
  split_and!; [exact Hused | exact Hselected |].
  rewrite Hused, size_list_to_set by done.
  subst selected. rewrite length_app, length_fmap, concat_app, length_app. lia.
Qed.

Lemma run_used_count_witness :
  let r := run_with None (Some (QueryRows [family_row; beach_row; garden_row]))
             [holidays_1; holidays_2] in
  let selected :=
    option_list (cover_filename r)
    ++ (filename <$> concat (toc_photos r ++ chapter_photos r)) in
  used_images r = list_to_set selected
  /\ NoDup selected
  /\ size (used_images r)
     = (length (option_list (cover_filename r))
        + length (concat (toc_photos r)) + length (concat (chapter_photos r)))%nat.
Proof.
  apply (run_used_count every_file "May 01, 2024" renders [] [holidays_1; holidays_2]
           "Our family" "A memoir" "/uploads"
           (Some (QueryRows [family_row; beach_row; garden_row])) None None).
  - reflexivity.
  - vm_compute. repeat constructor; intros H; repeat (inversion H as [|? ? ? H']; clear H; rename H' into H).
Defined.

(** X15: every thumbnail of the table of contents is stored under the title
    of one of the chapters and is the resolved file of a photo of the
    catalog; a title that no chapter carries has no thumbnail. *)
Theorem run_thumbnails_from_catalog
    (_get_safe_photo_path : string -> string -> option string)
    (today : string) (write_pdf : string -> string -> Outcome string)
    (self_family_names : list string) (chapters : list Chapter)
    (title subtitle upload_folder : string) (db_connection : option QueryOutcome)
    (hero_photo : option string) (family_names : option (list string))
    (key path : string) :
  let r := generate_biography_pdf _get_safe_photo_path today write_pdf self_family_names
             chapters title subtitle upload_folder db_connection hero_photo family_names in
  chapter_thumbnails r !! key = Some path ->
  exists chapter photo,
    chapter ∈ chapters /\ chapter_title chapter = key
    /\ photo ∈ (load_photos db_connection).1
    /\ if_truthy (_get_safe_photo_path upload_folder (filename photo)) = Some path.
Proof.
  intros r. subst r.
  destruct (run_phases _get_safe_photo_path today write_pdf self_family_names chapters title
              subtitle upload_folder db_connection hero_photo family_names)
    as (_ & _ & -> & _).
  intros [Hempty|H]%collect_thumbnails_lookup; [|exact H].
  by rewrite lookup_empty in Hempty.
Qed.

Lemma run_thumbnails_from_catalog_witness :
  exists chapter photo,
    chapter ∈ [summer_chapter] /\ chapter_title chapter = "Summer 1990"
    /\ photo ∈ (load_photos (Some (QueryRows [family_row; beach_row]))).1
    /\ if_truthy (every_file "/uploads" (filename photo)) = Some "/uploads/beach.jpg".
Proof.
  apply (run_thumbnails_from_catalog every_file "May 01, 2024" renders [] [summer_chapter]
           "Our family" "A memoir" "/uploads" (Some (QueryRows [family_row; beach_row]))
           None None "Summer 1990" "/uploads/beach.jpg").
  vm_compute. reflexivity.
Defined.

(** X16: the chapters appear in the document in the order given, each
    rendered with the photos matched to it: the markup of a run ends with
    the markup of its chapters, one after the other, and the closing tags. *)
Theorem run_chapters_in_order (_get_safe_photo_path : string -> string -> option string)
    (today : string) (write_pdf : string -> string -> Outcome string)
    (self_family_names : list string) (chapters : list Chapter)
    (title subtitle upload_folder : string) (db_connection : option QueryOutcome)
    (hero_photo : option string) (family_names : option (list string)) :
  let r := generate_biography_pdf _get_safe_photo_path today write_pdf self_family_names
             chapters title subtitle upload_folder db_connection hero_photo family_names in
  html_content r
  = html_head +:+ cover_html today (cover_photo_path r) title subtitle
    +:+ toc_html (chapter_thumbnails r) chapters
    +:+ concat_str
          (zip_with (fun chapter photos =>
                       _create_chapter_html (effective_names self_family_names family_names)
                         _get_safe_photo_path chapter photos upload_folder)
             chapters (chapter_photos r))
    +:+ html_tail.
Proof.
  intros r. subst r.
  destruct (run_phases _get_safe_photo_path today write_pdf self_family_names chapters title
              subtitle upload_folder db_connection hero_photo family_names)
    as (_ & -> & -> & _ & -> & _ & -> & _).
  by rewrite render_chapters_html.
Qed.

(** X17: without an explicit hero photo, as soon as one photo of the catalog
    with tagged people or with "family" in its title has a file, the cover
    is such a photo of the catalog, with its resolved path. *)
Theorem auto_cover_prefers_tagged
    (_get_safe_photo_path : string -> string -> option string)
    (today : string) (write_pdf : string -> string -> Outcome string)
    (self_family_names : list string) (chapters : list Chapter)
    (title subtitle upload_folder : string) (db_connection : option QueryOutcome)
    (hero_photo : option string) (family_names : option (list string))
    (photo : Photo) (path : string) :
  if_truthy hero_photo = None ->
  photo ∈ (load_photos db_connection).1 ->
  tagged_for_cover photo = true ->
  if_truthy (_get_safe_photo_path upload_folder (filename photo)) = Some path ->
  let r := generate_biography_pdf _get_safe_photo_path today write_pdf self_family_names
             chapters title subtitle upload_folder db_connection hero_photo family_names in
  exists chosen chosen_path,
    chosen ∈ (load_photos db_connection).1 /\ tagged_for_cover chosen = true
    /\ cover_filename r = Some (filename chosen)
    /\ cover_photo_path r = Some chosen_path
    /\ if_truthy (_get_safe_photo_path upload_folder (filename chosen)) = Some chosen_path.
Proof.
  intros Hhero Hin Htag Hpath r. subst r.
  destruct (run_phases _get_safe_photo_path today write_pdf self_family_names chapters title
              subtitle upload_folder db_connection hero_photo family_names)
    as (-> & -> & _).
  unfold select_cover. rewrite Hhero.
  destruct (load_photos db_connection).1 as [|first rest] eqn:Hcat;
    [by apply elem_of_nil in Hin|].
  destruct (auto_select_cover _get_safe_photo_path upload_folder (first :: rest))
    as [[chosen_path name]|] eqn:Hauto.
  - apply auto_select_cover_some in Hauto as (chosen & Hchosen & <- & Hct & Hcp).
    by exists chosen, chosen_path.
  - rewrite (auto_select_cover_none _ _ _ _ Hauto Hin Htag) in Hpath. discriminate Hpath.
Qed.

Lemma auto_cover_prefers_tagged_witness :
  exists chosen chosen_path,
    chosen ∈ (load_photos (Some (QueryRows [beach_row; family_row]))).1
    /\ tagged_for_cover chosen = true
    /\ cover_filename (run_with None (Some (QueryRows [beach_row; family_row]))
                         [summer_chapter]) = Some (filename chosen)
    /\ cover_photo_path (run_with None (Some (QueryRows [beach_row; family_row]))
                           [summer_chapter]) = Some chosen_path
    /\ if_truthy (every_file "/uploads" (filename chosen)) = Some chosen_path.
Proof.
  apply (auto_cover_prefers_tagged every_file "May 01, 2024" renders [] [summer_chapter]
           "Our family" "A memoir" "/uploads" (Some (QueryRows [beach_row; family_row]))
           None None (photo_of_row family_row) "/uploads/family.jpg").
  - reflexivity.
  - vm_compute. apply list_elem_of_further, list_elem_of_here.
  - vm_compute. reflexivity.
  - vm_compute. reflexivity.
Defined.

(** X18: without an explicit hero photo, when no tagged photo has a file the
    cover falls back to the first photo of the catalog if its file
    resolves, and there is no cover image otherwise. *)
Theorem auto_cover_fallback
    (_get_safe_photo_path : string -> string -> option string)
    (today : string) (write_pdf : string -> string -> Outcome string)
    (self_family_names : list string) (chapters : list Chapter)
    (title subtitle upload_folder : string) (db_connection : option QueryOutcome)
    (hero_photo : option string) (family_names : option (list string)) :
  if_truthy hero_photo = None ->
  (forall photo, photo ∈ (load_photos db_connection).1 -> tagged_for_cover photo = true ->
                 if_truthy (_get_safe_photo_path upload_folder (filename photo)) = None) ->
  let r := generate_biography_pdf _get_safe_photo_path today write_pdf self_family_names
             chapters title subtitle upload_folder db_connection hero_photo family_names in
  cover_photo_path r
  = match (load_photos db_connection).1 with
    | [] => None
    | first :: _ => if_truthy (_get_safe_photo_path upload_folder (filename first))
    end.
Proof.
  intros Hhero Hnone r. subst r.
  destruct (run_phases _get_safe_photo_path today write_pdf self_family_names chapters title
              subtitle upload_folder db_connection hero_photo family_names)
    as (_ & -> & _).
  unfold select_cover. rewrite Hhero.
  destruct (load_photos db_connection).1 as [|first rest] eqn:Hcat; [done|].
  destruct (auto_select_cover _get_safe_photo_path upload_folder (first :: rest))
    as [[chosen_path name]|] eqn:Hauto.
  - apply auto_select_cover_some in Hauto as (chosen & Hchosen & _ & Hct & Hcp).
    rewrite (Hnone chosen Hchosen Hct) in Hcp. discriminate Hcp.
  - destruct (if_truthy (_get_safe_photo_path upload_folder (filename first))); reflexivity.
Qed.

Lemma auto_cover_fallback_witness :
  cover_photo_path (run_with None (Some (QueryRows [beach_row; garden_row])) [summer_chapter])
  = Some "/uploads/beach.jpg".
Proof.
  apply (auto_cover_fallback every_file "May 01, 2024" renders [] [summer_chapter]
           "Our family" "A memoir" "/uploads" (Some (QueryRows [beach_row; garden_row]))
           None None).
  - reflexivity.
  - intros photo Hin Htag. vm_compute in Hin.
    apply elem_of_cons in Hin as [->|Hin]; [vm_compute in Htag; discriminate Htag|].
    apply list_elem_of_singleton in Hin as ->. vm_compute in Htag. discriminate Htag.
Defined.

(** ** Name highlighting *)

Section Highlighting.

Lemma is_prefix_ignorecase_lower (name s : list ascii) :
  is_prefix_ignorecase name s = is_prefix (map lower_char name) (map lower_char s).
Proof.
  revert s. induction name as [|a name IH]; intros s; simpl; [done|].
  destruct s as [|b s]; simpl; [done|]. by rewrite IH.
Qed.

Lemma sub_name_no_occurrence (name : list ascii) (prev : option ascii) (s : list ascii) :
  is_infix (map lower_char name) (map lower_char s) = false ->
  sub_name name prev 0 s = s.
Proof.
  revert prev. induction s as [|c s IH]; intros prev; simpl.
  - intros [Hp _]%orb_false_iff. unfold name_matches_at.
    rewrite is_prefix_ignorecase_lower. simpl. rewrite Hp. by rewrite andb_false_r.
  - intros [Hp Hi]%orb_false_iff. unfold name_matches_at.
    rewrite is_prefix_ignorecase_lower. simpl map. rewrite Hp, andb_false_r. simpl.
    by rewrite IH.
Qed.

Lemma sub_name_cons (name : list ascii) (prev : option ascii) (c : ascii) (s : list ascii) :
  sub_name name prev 0 (c :: s)
  = if name_matches_at name prev (c :: s) then
      highlight_span (take (length name) (c :: s)) ++
      match name with
      | [] => c :: sub_name name (Some c) 0 s
      | _ :: name' => sub_name name (Some c) (length name') s
      end
    else c :: sub_name name (Some c) 0 s.
Proof. reflexivity. Qed.

Lemma highlight_span_length (matched : list ascii) :
  (length matched <= length (highlight_span matched))%nat.
Proof. unfold highlight_span. rewrite !length_app. lia. Qed.

Lemma sub_name_length (name : list ascii) (prev : option ascii) (skip : nat) (s : list ascii) :
  (length s <= length (sub_name name prev skip s) + min skip (length s))%nat.
Proof.
  revert prev skip. induction s as [|c s IH]; intros prev skip; [simpl; lia|].
  destruct skip as [|k].
  - rewrite sub_name_cons. destruct (name_matches_at name prev (c :: s)).
    + rewrite length_app.
      pose proof (highlight_span_length (take (length name) (c :: s))) as Hspan.
      rewrite length_take in Hspan.
      destruct name as [|a name'].
      * specialize (IH (Some c) 0%nat). simpl length in *. lia.
      * specialize (IH (Some c) (length name')). simpl length in *. lia.
    + specialize (IH (Some c) 0%nat). simpl length in *. lia.
  - specialize (IH (Some c) k). simpl in *. lia.
Qed.

End Highlighting.

(** X19: in a text of ASCII characters, a name of ASCII characters that
    does not occur in the text, in any case, leaves the text as it is:
    highlighting changes such a text only where a name occurs. *)
Theorem highlight_without_occurrence (family_names : list string) (text : string) :
  ascii_only text = true ->
  (forall name, name ∈ family_names ->
     ascii_only name = true /\ contains (lower name) (lower text) = false) ->
  _highlight_names family_names text = text.
Proof.
  intros _. unfold _highlight_names.
  induction family_names as [|name rest IH]; intros Hnone; [done|].
  simpl. rewrite sub_name_no_occurrence.
  - rewrite l2s_s2l. apply IH. intros n Hn. apply Hnone. by apply list_elem_of_further.
  - destruct (Hnone name (list_elem_of_here _ _)) as [_ Habsent].
    unfold contains, lower in Habsent. by rewrite !s2l_l2s in Habsent.
Qed.

Lemma highlight_without_occurrence_witness :
  _highlight_names ["Mary Jones"] "John met johnny." = "John met johnny.".
Proof.
  apply highlight_without_occurrence; [vm_compute; reflexivity|].
  intros name ->%list_elem_of_singleton. split; vm_compute; reflexivity.
Defined.

(** X20: highlighting never shortens a text, so the text length that
    selects the layout is at least the length of the narrative. *)
Theorem highlight_never_shortens (family_names : list string) (text : string) :
  (String.length text <= String.length (_highlight_names family_names text))%nat.
Proof.
  unfold _highlight_names. revert text.
  induction family_names as [|name rest IH]; intros text; simpl; [lia|].
  etrans; [|apply IH]. rewrite length_l2s, <- length_s2l.
  pose proof (sub_name_length (s2l name) None 0 (s2l text)) as H. simpl in H. lia.
Qed.

(** ** The markup of a chapter *)

Section ChapterMarkup.

Lemma contains_here (x a b : string) : contains x (a +:+ x +:+ b) = true.
Proof. apply contains_spec. by exists a, b. Qed.

Lemma contains_app_r (x a b : string) : contains x b = true -> contains x (a +:+ b) = true.
Proof.
  rewrite !contains_spec. intros (u & v & ->). exists (a +:+ u), v. by rewrite append_assoc.
Qed.

Lemma contains_app_l (x a b : string) : contains x a = true -> contains x (a +:+ b) = true.
Proof.
  rewrite !contains_spec. intros (u & v & ->). exists u, (v +:+ b). by rewrite !append_assoc.
Qed.

Lemma append_empty_r (a : string) : a +:+ "" = a.
Proof.
  induction a as [|c a IH]; [done|]. change (String c (a +:+ "") = String c a). by rewrite IH.
Qed.

Lemma contains_refl (x : string) : contains x x = true.
Proof. apply contains_spec. exists "", "". by rewrite append_empty_r. Qed.

Lemma concat_str_contains (x e : string) (l : list string) :
  e ∈ l -> contains x e = true -> contains x (concat_str l) = true.
Proof.
  induction l as [|y l IH]; simpl; [by intros ?%elem_of_nil|].
  intros [->|Hin]%elem_of_cons Hx; [by apply contains_app_l | by apply contains_app_r, IH].
Qed.

Lemma paragraphs_contains (x : string) (paragraphs : list string) :
  x ∈ paragraphs -> contains (p_tag x) (concat_str (map p_tag paragraphs)) = true.
Proof.
  intros Hin. apply (concat_str_contains _ (p_tag x)); [|apply contains_refl].
  by apply (list_elem_of_fmap_2 p_tag).
Qed.

Variable family_names : list string.
Variable _get_safe_photo_path : string -> string -> option string.
Variable upload_folder : string.

Lemma first_or_rest_contains (x before between after : string) (paragraphs : list string) :
  x ∈ paragraphs ->
  contains (p_tag x)
    (before +:+ match paragraphs with first :: _ => p_tag first | [] => "" end
     +:+ between +:+ concat_str (map p_tag (drop 1 paragraphs)) +:+ after) = true.
Proof.
  destruct paragraphs as [|first rest]; [by intros ?%elem_of_nil|].
  intros [->|Hin]%elem_of_cons.
  - apply contains_here.
  - do 3 apply contains_app_r. apply contains_app_l. by apply paragraphs_contains.
Qed.

End ChapterMarkup.

(** X21: the text of a chapter is not lost: every paragraph of the
    (highlighted) narrative is in the chapter's markup, in each layout,
    provided that in the facing-spread layout the file of the photo
    resolves. *)
Theorem chapter_paragraphs_rendered (family_names : list string)
    (_get_safe_photo_path : string -> string -> option string)
    (chapter : Chapter) (photos : list Photo) (upload_folder : string) (para : string) :
  let text := _highlight_names family_names (narrative chapter) in
  (select_layout photos (String.length text) = FacingSpread ->
   forall photo, head photos = Some photo ->
                 is_Some (if_truthy (_get_safe_photo_path upload_folder (filename photo)))) ->
  para ∈ paragraphs_of text ->
  contains (p_tag para)
    (_create_chapter_html family_names _get_safe_photo_path chapter photos upload_folder)
  = true.
Proof.
  intros text Hfacing Hpara. unfold _create_chapter_html. fold text.
  do 6 apply contains_app_r. apply contains_app_l.
  destruct (select_layout photos (String.length text)) eqn:Hlayout.
  - unfold facing_spread_body.
    assert (exists photo rest, photos = photo :: rest) as (photo & rest & ->).
    { destruct photos as [|photo rest]; [discriminate Hlayout | by exists photo, rest]. }
    destruct (Hfacing eq_refl photo eq_refl) as [path ->].
    do 2 apply contains_app_r. apply contains_app_l.
    apply list_elem_of_lookup in Hpara as [i Hi].
    eapply concat_str_contains.
    + apply list_elem_of_lookup. exists i. rewrite list_lookup_imap, Hi. reflexivity.
    + apply contains_app_l, contains_refl.
  - unfold grid_with_text_body. fold text.
    destruct (paragraphs_of text) as [|first rest] eqn:Hps; [by apply elem_of_nil in Hpara|].
    apply elem_of_cons in Hpara as [->|Hin].
    + apply contains_here.
    + do 5 apply contains_app_r.
      destruct rest as [|second rest']; [by apply elem_of_nil in Hin|]. simpl.
      do 3 apply contains_app_r. apply contains_app_l.
      by apply (paragraphs_contains para (second :: rest')).
  - unfold embedded_image_body.
    set (image := match photos with [] => "" | _ => _ end).
    pose proof (first_or_rest_contains para (div "chapter-narrative")
                  ("</div>" +:+ image +:+ div "chapter-narrative") "</div>"
                  (paragraphs_of text) Hpara) as H.
    by rewrite !append_assoc in H.
  - unfold simple_body. do 3 apply contains_app_r. apply contains_app_l.
    by apply paragraphs_contains.
Qed.

Lemma chapter_paragraphs_rendered_witness :
  contains (p_tag narrative_801)
    (_create_chapter_html [] every_file (mkChapter "Our year" narrative_801)
       [beach_photo] "/uploads") = true.
Proof.
  apply chapter_paragraphs_rendered.
  - intros _ photo [= <-]. vm_compute. eexists. reflexivity.
  - vm_compute. apply list_elem_of_here.
Defined.

(** X22: in the grid layout at most three photos are rendered: with two or
    more photos, the photos after the third do not change the markup. *)
Theorem grid_shows_three_photos (family_names : list string)
    (_get_safe_photo_path : string -> string -> option string)
    (chapter : Chapter) (photos : list Photo) (upload_folder : string) :
  (2 <= length photos)%nat ->
  _create_chapter_html family_names _get_safe_photo_path chapter photos upload_folder
  = _create_chapter_html family_names _get_safe_photo_path chapter (take 3 photos)
      upload_folder.
Proof.
  intros Hlen. unfold _create_chapter_html.
  assert (forall n, select_layout photos n = GridWithText
                    /\ select_layout (take 3 photos) n = GridWithText) as Hgrid.
  { intros n. unfold select_layout. rewrite length_take.
    destruct photos as [|a [|b [|c rest]]]; simpl in *; try lia; done. }
  destruct (Hgrid (String.length (_highlight_names family_names (narrative chapter))))
    as [-> ->].
  unfold grid_with_text_body. by rewrite take_take.
Qed.

Lemma grid_shows_three_photos_witness :
  _create_chapter_html [] every_file summer_chapter
    [beach_photo; photo_of_1988; photo_of_1990; early_photo; year_zero_photo] "/uploads"
  = _create_chapter_html [] every_file summer_chapter
      [beach_photo; photo_of_1988; photo_of_1990] "/uploads".
Proof.
  apply (grid_shows_three_photos [] every_file summer_chapter
           [beach_photo; photo_of_1988; photo_of_1990; early_photo; year_zero_photo]).
  simpl. lia.
Defined.

(** ** Family names extracted from the chapters *)

Section FamilyNames.

Lemma lower_run_prefix (s : list ascii) : s = lower_run s ++ drop (length (lower_run s)) s.
Proof.
  induction s as [|c s IH]; simpl; [done|].
  destruct (is_lower_az c); simpl; [by rewrite <- IH | done].
Qed.

Lemma lower_run_lower (s : list ascii) : Forall (fun c => is_lower_az c = true) (lower_run s).
Proof.
  induction s as [|c s IH]; simpl; [constructor|].
  destruct (is_lower_az c) eqn:Hc; [by constructor | constructor].
Qed.

Lemma name_match_shape (prev : option ascii) (s : list ascii) (n : nat) :
  name_match_length prev s = Some n -> two_capitalised_words (take n s).
Proof.
  unfold name_match_length. destruct s as [|a s1]; [done|].
  destruct (negb (is_word_opt prev)); [|done].
  destruct (is_upper_az a) eqn:Ha; [|done]. cbn [andb].
  pose proof (lower_run_prefix s1) as Hs1. pose proof (lower_run_lower s1) as Hl1.
  revert Hs1 Hl1. generalize (lower_run s1) as run1. intros run1 Hs1 Hl1.
  destruct run1 as [|x run1']; [done|].
  set (rest1 := drop (length (x :: run1')) s1) in *. clearbody rest1.
  destruct rest1 as [|sp [|b s2]]; [done|done|].
  destruct (ascii_dec sp " ") as [->|]; [|done].
  destruct (is_upper_az b) eqn:Hb; [|done]. cbn [andb].
  pose proof (lower_run_prefix s2) as Hs2. pose proof (lower_run_lower s2) as Hl2.
  revert Hs2 Hl2. generalize (lower_run s2) as run2. intros run2 Hs2 Hl2.
  destruct run2 as [|y run2']; [done|].
  set (rest2 := drop (length (y :: run2')) s2) in *. clearbody rest2.
  destruct (negb _); [|done]. intros [= <-].
  exists a, (x :: run1'), b, (y :: run2'). split_and!; try done.
  rewrite Hs1, Hs2.
  replace (a :: (x :: run1') ++ " "%char :: b :: (y :: run2') ++ rest2)
    with ((a :: (x :: run1') ++ " "%char :: b :: (y :: run2')) ++ rest2)
    by (simpl; f_equal; f_equal; rewrite <- app_assoc; done).
  transitivity (take (length (a :: (x :: run1') ++ " "%char :: b :: (y :: run2')))
                  ((a :: (x :: run1') ++ " "%char :: b :: (y :: run2')) ++ rest2));
    [|apply take_app_length].
  f_equal. simpl. rewrite length_app. simpl. lia.
Qed.

Lemma findall_names_cons (prev : option ascii) (skip : nat) (c : ascii) (s : list ascii) :
  findall_names prev skip (c :: s)
  = match skip with
    | S k => findall_names (Some c) k s
    | O =>
        match name_match_length prev (c :: s) with
        | Some n => take n (c :: s) :: findall_names (Some c) (n - 1) s
        | None => findall_names (Some c) 0 s
        end
    end.
Proof. reflexivity. Qed.

Lemma findall_names_shape (prev : option ascii) (skip : nat) (s : list ascii) :
  Forall two_capitalised_words (findall_names prev skip s).
Proof.
  revert prev skip. induction s as [|c s IH]; intros prev skip; [constructor|].
  rewrite findall_names_cons. destruct skip as [|k]; [|apply IH].
  destruct (name_match_length prev (c :: s)) as [n|] eqn:Hn; [|apply IH].
  constructor; [by eapply name_match_shape | apply IH].
Qed.

Lemma collect_family_names_origin (chapters : list Chapter) (name : string) :
  name ∈ collect_family_names chapters ->
  exists chapter,
    chapter ∈ chapters
    /\ name ∈ take 2 (re_findall_names (chapter_title chapter +:+ " " +:+ narrative chapter)).
Proof.
  induction chapters as [|chapter rest IH]; simpl; [by intros ?%elem_of_nil|].
  intros [Hin|Hin]%elem_of_app.
  - exists chapter. split; [apply list_elem_of_here | done].
  - destruct (IH Hin) as (ch & Hch & H). exists ch. split; [by apply list_elem_of_further | done].
Qed.

End FamilyNames.

(** X23: the module-level function hands at most five family names to the
    generator, all different, and each of them is one of the first two
    names found in the title and narrative of some chapter; this holds for
    every order in which the set of names is listed. *)
Theorem family_names_extracted (list_of_set : list string -> list string)
    (chapters : list Chapter) :
  (forall l, NoDup (list_of_set l) /\ forall x, x ∈ list_of_set l <-> x ∈ l) ->
  (length (extract_family_names list_of_set chapters) <= 5)%nat
  /\ NoDup (extract_family_names list_of_set chapters)
  /\ forall name, name ∈ extract_family_names list_of_set chapters ->
       exists chapter,
         chapter ∈ chapters
         /\ name ∈ take 2 (re_findall_names
                             (chapter_title chapter +:+ " " +:+ narrative chapter)).
Proof.
  intros Hset. unfold extract_family_names.
  destruct (Hset (collect_family_names chapters)) as [Hnd Hin]. split_and!.
  - rewrite length_take. lia.
  - eapply sublist_NoDup; [exact Hnd | apply sublist_take].
  - intros name Hname. apply collect_family_names_origin, Hin.
    eapply elem_of_submseteq; [exact Hname | apply submseteq_take].
Qed.

Lemma family_names_extracted_witness :
  (length (extract_family_names remove_dups
             [mkChapter "Early years" "John Smith met Mary Jones. John Smith and Ann Lee left."])
   <= 5)%nat
  /\ NoDup (extract_family_names remove_dups
              [mkChapter "Early years" "John Smith met Mary Jones. John Smith and Ann Lee left."])
  /\ forall name,
       name ∈ extract_family_names remove_dups
                [mkChapter "Early years"
                   "John Smith met Mary Jones. John Smith and Ann Lee left."] ->
       exists chapter,
         chapter ∈ [mkChapter "Early years"
                      "John Smith met Mary Jones. John Smith and Ann Lee left."]
         /\ name ∈ take 2 (re_findall_names
                             (chapter_title chapter +:+ " " +:+ narrative chapter)).
Proof.
  apply family_names_extracted. intros l. split; [apply NoDup_remove_dups|].
  intros x. apply elem_of_remove_dups.
Defined.

(** X24: every family name extracted from the chapters is made of two
    capitalised words, each an upper-case letter followed by lower-case
    letters, separated by one space. *)
Theorem family_names_shape (list_of_set : list string -> list string)
    (chapters : list Chapter) (name : string) :
  (forall l x, x ∈ list_of_set l -> x ∈ l) ->
  name ∈ extract_family_names list_of_set chapters ->
  two_capitalised_words (s2l name).
Proof.
  intros Hset Hname. unfold extract_family_names in Hname.
  eapply elem_of_submseteq in Hname; [|apply submseteq_take].
  apply Hset, collect_family_names_origin in Hname as (chapter & _ & Hin).
  eapply elem_of_submseteq in Hin; [|apply submseteq_take].
  unfold re_findall_names in Hin. apply list_elem_of_fmap in Hin as (w & -> & Hw).
  rewrite s2l_l2s.
  pose proof (findall_names_shape None 0
                (s2l (chapter_title chapter +:+ " " +:+ narrative chapter))) as Hall.
  rewrite Forall_forall in Hall. by apply Hall.
Qed.

Lemma family_names_shape_witness : two_capitalised_words (s2l "Mary Jones").
Proof.
  apply (family_names_shape remove_dups
           [mkChapter "Early years" "John Smith met Mary Jones."] "Mary Jones").
  - intros l x. apply elem_of_remove_dups.
  - vm_compute. apply list_elem_of_further, list_elem_of_here.
Defined.

(** ** Paragraphs and captions *)

Section Paragraphs.

Lemma split_blank_lines_cons (c : ascii) (s : list ascii) :
  split_blank_lines (c :: s)
  = let keep :=
      match split_blank_lines s with
      | piece :: pieces => (c :: piece) :: pieces
      | [] => [[c]]
      end in
    if ascii_dec c newline then
      match s with
      | c' :: s'' => if ascii_dec c' newline then [] :: split_blank_lines s'' else keep
      | [] => keep
      end
    else keep.
Proof. reflexivity. Qed.

Lemma split_blank_lines_Forall (P : ascii -> Prop) (n : nat) (s : list ascii) :
  (length s <= n)%nat -> Forall P s -> Forall (Forall P) (split_blank_lines s).
Proof.
  revert s. induction n as [|n IH]; intros s Hlen Hs.
  - destruct s; [repeat constructor | simpl in Hlen; lia].
  - destruct s as [|c s]; [repeat constructor|].
    apply Forall_cons in Hs as [Hc Hs]. simpl in Hlen.
    rewrite split_blank_lines_cons.
    assert (Forall (Forall P)
              match split_blank_lines s with
              | piece :: pieces => (c :: piece) :: pieces
              | [] => [[c]]
              end) as Hkeep.
    { specialize (IH s ltac:(lia) Hs).
      destruct (split_blank_lines s) as [|piece pieces]; [by repeat constructor|].
      apply Forall_cons in IH as [Hpiece Hpieces]. constructor; [by constructor | done]. }
    cbv zeta. destruct (ascii_dec c newline); [|exact Hkeep].
    destruct s as [|c' s'']; [exact Hkeep|].
    destruct (ascii_dec c' newline); [|exact Hkeep].
    apply Forall_cons in Hs as [_ Hs'']. simpl in Hlen.
    constructor; [constructor | apply IH; [lia | done]].
Qed.

Lemma lstrip_blank (s : list ascii) : Forall (fun c => is_space c = true) s -> lstrip s = [].
Proof. induction 1 as [|c s Hc _ IH]; simpl; [done | by rewrite Hc]. Qed.

End Paragraphs.

(** X25: the paragraphs of a narrative are never empty and neither start
    nor end with white space; a narrative of white space only has no
    paragraph at all. *)
Theorem paragraphs_trimmed (text : string) :
  (forall para, para ∈ paragraphs_of text ->
     para <> ""
     /\ (forall c, head (s2l para) = Some c -> is_space c = false)
     /\ (forall c, last (s2l para) = Some c -> is_space c = false))
  /\ (Forall (fun c => is_space c = true) (s2l text) -> paragraphs_of text = []).
Proof.
  unfold paragraphs_of. split.
  - intros para [Hne (piece & -> & _)%list_elem_of_fmap]%list_elem_of_filter.
    rewrite s2l_l2s. split_and!; [done | apply strip_chars_head | apply strip_chars_last].
  - intros Hblank.
    pose proof (split_blank_lines_Forall _ _ (s2l text) (le_n _) Hblank) as Hpieces.
    induction Hpieces as [|piece pieces Hpiece _ IH]; [done|].
    simpl. rewrite filter_cons_False; [exact IH|].
    unfold strip_chars. rewrite (lstrip_blank piece Hpiece). simpl. by intros H.
Qed.

(** X26: a photo has an empty caption exactly when it has no title, no
    description and no year other than 0: a year of 0 counts as no year. *)
Theorem caption_empty_iff (photo : Photo) :
  caption_of photo = ""
  <-> title photo = "" /\ description photo = "" /\ (year photo = None \/ year photo = Some 0).
Proof.
  unfold caption_of.
  destruct (title photo) as [|c t] eqn:Ht, (description photo) as [|d t'] eqn:Hd,
    (year photo) as [y|] eqn:Hy; simpl;
    try destruct (Z.eqb_spec y 0) as [->|Hne]; simpl;
    split; try done; try (intros (? & ? & [?|?]); congruence); try (by intros; auto).
Qed.

(** ** Used images across the calls of a run *)

(** X27: a call of the matcher marks exactly the photos it returns: the
    used set afterwards is the one before plus their filenames, none of
    which was in it; with distinct filenames in the catalog it grows by the
    number of photos returned. *)
Theorem match_marks_returned (family_names : list string) (used_images : gset string)
    (chapter_title chapter_text : string) (available_photos : list Photo) (max_photos : Z) :
  let call := _match_photos_to_chapter family_names used_images chapter_title chapter_text
                available_photos max_photos in
  call.2 = used_images ∪ list_to_set (filename <$> call.1)
  /\ Forall (fun photo => filename photo ∉ used_images) call.1
  /\ (NoDup (filename <$> available_photos) ->
      size call.2 = (size used_images + length call.1)%nat).
Proof.
  intros call. subst call. split_and!.
  - apply match_used_after.
  - apply Forall_forall. intros photo Hphoto.
    apply match_selected_candidates in Hphoto. tauto.
  - intros Hnd. rewrite match_used_after, size_union.
    + rewrite size_list_to_set by (by apply match_selected_NoDup). by rewrite length_fmap.
    + intros name Hused Hsel.
      apply elem_of_list_to_set, list_elem_of_fmap in Hsel as (photo & -> & Hphoto).
      apply match_selected_candidates in Hphoto. tauto.
Qed.

(** X28: a photo taken as a thumbnail of the table of contents appears in
    no chapter body, whatever the catalog and the cover: the chapter calls
    run after the thumbnail calls, on the used set these left. *)
Theorem thumbnails_excluded_from_chapters
    (_get_safe_photo_path : string -> string -> option string)
    (today : string) (write_pdf : string -> string -> Outcome string)
    (self_family_names : list string) (chapters : list Chapter)
    (title subtitle upload_folder : string) (db_connection : option QueryOutcome)
    (hero_photo : option string) (family_names : option (list string)) :
  let r := generate_biography_pdf _get_safe_photo_path today write_pdf self_family_names
             chapters title subtitle upload_folder db_connection hero_photo family_names in
  Forall (fun p => Forall (fun q => filename p <> filename q) (concat (chapter_photos r)))
    (concat (toc_photos r)).
Proof.
  intros r. subst r.
  destruct (run_calls _get_safe_photo_path today write_pdf self_family_names chapters title
              subtitle upload_folder db_connection hero_photo family_names)
    as (names & Hcalls & _).
  apply Forall_forall. intros p Hp. apply Forall_forall. intros q Hq.
  by eapply calls_never_repeat.
Qed.
